(** * okiedokie-utility: bulk jobs, progress events and password generation

    A shallow embedding of the backend's document-fetcher service
    ([services/documentFetcherService.ts]), its background driver
    ([routes/documentFetcher.ts]), the Socket.IO emit helpers
    ([socket/socketHandlers.ts]) and the password generator route,
    followed by the properties the specification states about them.

    Conventions.
    - A JavaScript string is a [string]; one [ascii] stands for one code
      unit, so the model covers the code units below 256.
    - [async] functions are resumptions: a computation runs on the shared
      state up to its next [await], and is resumed later by the event loop.
    - Everything the platform decides (file system, network, URL parser,
      path module, wall clock, random bytes) is read from a [World]. *)

From Stdlib Require Import ZArith QArith Ascii String List Lia.
From stdpp Require Import base gmap strings list pretty.

Local Open Scope string_scope.
Local Open Scope list_scope.

(* ===================================================================== *)
(** * JavaScript values *)
(* ===================================================================== *)

Module Js.

(** A cell of an uploaded record ([any] in the source).  [JOther] stands for
    every value that is neither nullish nor a string (number, boolean,
    array, object), with its [ToBoolean] and its [ToString]. *)
Inductive jsval : Type :=
| JUndefined
| JNull
| JStr (s : string)
| JOther (truthy : bool) (shown : string).

Definition truthy_string (s : string) : bool := negb (String.eqb s "").

Definition to_boolean (v : jsval) : bool :=
  match v with
  | JUndefined | JNull => false
  | JStr s => truthy_string s
  | JOther b _ => b
  end.

(** [a || b] *)
Definition or_else (a b : jsval) : jsval := if to_boolean a then a else b.

(** [s || d] on strings *)
Definition or_default (s d : string) : string := if truthy_string s then s else d.

(** [opt || d] where [opt] is an optional string field *)
Definition opt_or_default (o : option string) (d : string) : string :=
  match o with
  | Some s => or_default s d
  | None => d
  end.

(** [`${v}`] *)
Definition to_string (v : jsval) : string :=
  match v with
  | JUndefined => "undefined"
  | JNull => "null"
  | JStr s => s
  | JOther _ shown => shown
  end.

(** [hay.includes(needle)] *)
Fixpoint includes (hay needle : string) : bool :=
  String.prefix needle hay ||
  match hay with
  | EmptyString => false
  | String _ rest => includes rest needle
  end.

Definition code (c : ascii) : N := N_of_ascii c.

Definition in_range (lo hi : N) (c : ascii) : bool :=
  (lo <=? code c)%N && (code c <=? hi)%N.

Definition is_char (x : ascii) (c : ascii) : bool := Ascii.eqb x c.

Definition lower_char (c : ascii) : ascii :=
  if in_range 65 90 c || (in_range 192 222 c && negb (code c =? 215)%N)
  then ascii_of_N (code c + 32)
  else c.

Fixpoint toLowerCase (s : string) : string :=
  match s with
  | EmptyString => EmptyString
  | String c rest => String (lower_char c) (toLowerCase rest)
  end.

(** The class [\s] on code units below 256. *)
Definition is_space (c : ascii) : bool :=
  in_range 9 13 c || (code c =? 32)%N || (code c =? 160)%N.

(** [s.replace(/\s+/g, '_')]: every maximal run of white space becomes one
    underscore.  [in_run] tells that the previous code unit was white
    space. *)
Fixpoint replace_spaces (in_run : bool) (s : string) : string :=
  match s with
  | EmptyString => EmptyString
  | String c rest =>
      if is_space c
      then if in_run then replace_spaces true rest
           else String "_" (replace_spaces true rest)
      else String c (replace_spaces false rest)
  end.

(** Whether the code unit [c] occurs in [s]. *)
Fixpoint mem_char (c : ascii) (s : string) : bool :=
  match s with
  | EmptyString => false
  | String x rest => Ascii.eqb c x || mem_char c rest
  end.

(** [s.replace(/[...]/g, '')] for a character class [p]. *)
Fixpoint remove_chars (p : ascii -> bool) (s : string) : string :=
  match s with
  | EmptyString => EmptyString
  | String c rest =>
      if p c then remove_chars p rest else String c (remove_chars p rest)
  end.

(** What a [throw] or a rejected promise carries: an [Error] instance with
    its [message], or a bare string. *)
Inductive thrown : Type :=
| ErrorObj (message : string)
| ThrownStr (s : string).

(** [error instanceof Error ? error.message : d] *)
Definition message_or (e : thrown) (d : string) : string :=
  match e with
  | ErrorObj m => m
  | ThrownStr _ => d
  end.

(** The result of a fallible call. *)
Inductive outcome (A : Type) : Type :=
| Ok (a : A)
| Throw (e : thrown).
Arguments Ok {A} a.
Arguments Throw {A} e.

End Js.
Export Js.

(* ===================================================================== *)
(** * Shared types ([types/index.ts]) *)
(* ===================================================================== *)

Inductive status : Type := pending | processing | success | failed | skipped.

Definition status_eqb (a b : status) : bool :=
  match a, b with
  | pending, pending | processing, processing | success, success
  | failed, failed | skipped, skipped => true
  | _, _ => false
  end.

(** [DocumentFetcherResult extends ProcessingResult]; an absent optional
    field is [None]. *)
Record DocumentFetcherResult : Type := {
  r_id : string;
  r_regNo : jsval;
  r_column : string;
  r_status : status;
  r_message : string;
  r_filePath : option string;
  r_fileName : option string;
  r_fileSize : option N;
  r_error : option string;
  r_timestamp : string
}.

(** The number of results with a given status. *)
Fixpoint count_status (st : status) (rs : list DocumentFetcherResult) : nat :=
  match rs with
  | [] => 0
  | r :: rest => (if status_eqb (r_status r) st then 1 else 0) + count_status st rest
  end.

(** [StudentRecord]: [row[key]] is [undefined] for a missing key. *)
Definition StudentRecord : Type := gmap string jsval.

Definition get (row : StudentRecord) (key : string) : jsval :=
  default JUndefined (row !! key).

(** [DocumentFetcherConfig].  [columnMapping] lists the entries of the
    object in [Object.entries] order. *)
Record DocumentFetcherConfig : Type := {
  maxConcurrent : Z;
  timeout : Z;
  autoOrganize : bool;
  columnMapping : option (list (string * string))
}.

(** [error.message || error] in [emitError]: the message when it is a
    non-empty string, else the thrown value itself. *)
Inductive error_field : Type :=
| EMsg (s : string)
| ERaw (e : thrown).

(** The payload shapes the document fetcher sends ([data: any]). *)
Inductive payload : Type :=
| DriverStart (jobId : string) (totalRecords : nat) (config : DocumentFetcherConfig)
    (timestamp : string)
| ServiceStart (jobId : string) (totalRecords totalTasks skippedTasks downloadTasks : nat)
    (timestamp : string)
| DownloadStart (jobId : string) (regNo : jsval) (column url timestamp : string)
| DownloadComplete (jobId : string) (regNo : jsval) (column filePath timestamp : string)
| DownloadError (jobId : string) (regNo : jsval) (column error timestamp : string)
| ItemProgress (jobId : string) (current total : nat) (progress : Q)
    (result : DocumentFetcherResult) (timestamp : string)
| ServiceComplete (jobId : string) (totalProcessed totalSkipped : nat) (zipPath : string)
    (results : list DocumentFetcherResult) (timestamp : string)
| DriverComplete (jobId : string) (result : list DocumentFetcherResult) (timestamp : string)
| ErrorData (jobId : string) (error : error_field) (timestamp : string).

(* ===================================================================== *)
(** * Socket.IO server and emit helpers ([socket/socketHandlers.ts]) *)
(* ===================================================================== *)

Module Socket.

Definition socket_id : Type := string.

Inductive target : Type :=
| ToRoom (room : string)      (* io.to(room).emit(...) *)
| ToAll.                      (* io.emit(...) *)

Record emission : Type := {
  em_target : target;
  em_event : string;
  em_data : payload
}.

(** The server: the connected sockets with the rooms each one is in, and
    what it was asked to send, oldest first. *)
Record Server : Type := {
  rooms : gmap socket_id (gset string);
  outbox : list emission
}.

(** A new connection; Socket.IO puts every socket in the room of its own
    id. *)
Definition connect (sid : socket_id) (io : Server) : Server :=
  {| rooms := <[sid := {[sid]}]> (rooms io); outbox := outbox io |}.

Definition disconnect (sid : socket_id) (io : Server) : Server :=
  {| rooms := delete sid (rooms io); outbox := outbox io |}.

(** [socket.on('join:job', jobId => socket.join(jobId))] *)
Definition join_job (sid : socket_id) (jobId : string) (io : Server) : Server :=
  {| rooms := alter (fun rs => {[jobId]} ∪ rs) sid (rooms io); outbox := outbox io |}.

(** [socket.on('leave:job', jobId => socket.leave(jobId))] *)
Definition leave_job (sid : socket_id) (jobId : string) (io : Server) : Server :=
  {| rooms := alter (fun rs => rs ∖ {[jobId]}) sid (rooms io); outbox := outbox io |}.

(** Who receives an emission. *)
Definition audience (io : Server) (t : target) : gset socket_id :=
  match t with
  | ToRoom room => dom (filter (fun kv => room ∈ kv.2) (rooms io))
  | ToAll => dom (rooms io)
  end.

Definition send (t : target) (event : string) (data : payload) (io : Server) : Server :=
  {| rooms := rooms io;
     outbox := outbox io ++ [{| em_target := t; em_event := event; em_data := data |}] |}.

Definition emitProgress (io : Server) (jobId event : string) (data : payload) : Server :=
  send ToAll event data (send (ToRoom jobId) event data io).

Definition emitCompletion (io : Server) (jobId event : string) (data : payload) : Server :=
  send ToAll event data (send (ToRoom jobId) event data io).

Definition error_of (e : thrown) : error_field :=
  match e with
  | ErrorObj m => if truthy_string m then EMsg m else ERaw e
  | ThrownStr s => ERaw e
  end.

(** [now] is the value of [new Date().toISOString()] read while building
    [errorData]. *)
Definition emitError (io : Server) (jobId event : string) (error : thrown) (now : string)
  : Server :=
  let errorData := ErrorData jobId (error_of error) now in
  send ToAll event errorData (send (ToRoom jobId) event errorData io).

(** What one call of a helper adds to the outbox. *)
Definition emits (jobId event : string) (data : payload) : list emission :=
  [ {| em_target := ToRoom jobId; em_event := event; em_data := data |};
    {| em_target := ToAll; em_event := event; em_data := data |} ].

End Socket.
Export Socket.

(* ===================================================================== *)
(** * Password generator (the route of [/generate] and [/generate-bulk]) *)
(* ===================================================================== *)

Module Password.

Record PasswordConfig : Type := {
  length : Z;
  includeUppercase : bool;
  includeLowercase : bool;
  includeNumbers : bool;
  includeSymbols : bool;
  excludeSimilar : bool;
  excludeAmbiguous : bool;
  customChars : option string;
  count : Z
}.

(** The class [[il1Lo0O]] *)
Definition is_similar (c : ascii) : bool := mem_char c "il1Lo0O".

(** The class [[{}[\]()\/\\~,;.<>]] *)
Definition is_ambiguous (c : ascii) : bool := mem_char c "{}[]()/\~,;.<>".

(** The character set before the two filters. *)
Definition selected (config : PasswordConfig) : string :=
  (if includeLowercase config then "abcdefghijklmnopqrstuvwxyz" else "") +:+
  (if includeUppercase config then "ABCDEFGHIJKLMNOPQRSTUVWXYZ" else "") +:+
  (if includeNumbers config then "0123456789" else "") +:+
  (if includeSymbols config then "!@#$%^&*()_+-=[]{}|;:,.<>?" else "") +:+
  (match customChars config with
   | Some chars => chars
   | None => ""
   end).

(** The character set after the two filters. *)
Definition filtered (config : PasswordConfig) : string :=
  let charset := selected config in
  let charset := if excludeSimilar config then remove_chars is_similar charset else charset in
  if excludeAmbiguous config then remove_chars is_ambiguous charset else charset.

(** One turn of the loop: [array[i] % charset.length] is [NaN] for the empty
    set, [charset[NaN]] is [undefined] and nothing is appended. *)
Definition pick (charset : string) (arrayValue : Byte.byte) : option ascii :=
  let len := String.length charset in
  if Nat.eqb len 0 then None
  else String.get (N.to_nat (Byte.to_N arrayValue) mod len) charset.

Fixpoint fill (charset : string) (array : list Byte.byte) : string :=
  match array with
  | [] => ""
  | arrayValue :: rest =>
      match pick charset arrayValue with
      | Some c => String c (fill charset rest)
      | None => fill charset rest
      end
  end.

(** [random i] is the [i]-th byte [crypto.getRandomValues] writes.
    [new Uint8Array(n)] throws a [RangeError] for a negative [n], and
    [getRandomValues] refuses more than 65536 bytes. *)
Definition createPassword (random : nat -> Byte.byte) (config : PasswordConfig)
  : outcome string :=
  if String.eqb (selected config) ""
  then Throw (ErrorObj "At least one character type must be selected")
  else if (length config <? 0)%Z
  then Throw (ErrorObj "Invalid typed array length")
  else if (65536 <? length config)%Z
  then Throw (ErrorObj "The requested length exceeds 65,536 bytes")
  else Ok (fill (filtered config) (map random (seq 0 (Z.to_nat (length config))))).

End Password.

(* ===================================================================== *)
(** * Asynchronous computations *)
(* ===================================================================== *)

(** An [async] function body runs on the shared state [St] without
    interruption up to its next [await]; there it hands control back to the
    event loop together with what is left to do.  [Wait k] is a computation
    suspended at an [await]: when the event loop resumes it on the state of
    that moment, [k] runs up to the following [await]. *)

Section Async.
Context {St : Type}.

#[warnings="-register-all"]
Inductive res (A : Type) : Type :=
| Done (a : A)
| Wait (k : St -> St * res A).
Arguments Done {A} a.
Arguments Wait {A} k.

Definition Async (A : Type) : Type := St -> St * res A.

Definition ret {A} (a : A) : Async A := fun s => (s, Done a).

Fixpoint bind_res {A B} (r : res A) (f : A -> Async B) (s : St) : St * res B :=
  match r with
  | Done a => f a s
  | Wait k => (s, Wait (fun s' => let '(s'', r') := k s' in bind_res r' f s''))
  end.

Definition bind {A B} (m : Async A) (f : A -> Async B) : Async B :=
  fun s => let '(s', r) := m s in bind_res r f s'.

(** A synchronous piece of code. *)
Definition sync {A} (f : St -> St * A) : Async A :=
  fun s => let '(s', a) := f s in (s', Done a).

(** Giving control back to the event loop once. *)
Definition pause : Async unit :=
  fun s => (s, Wait (fun s' => (s', Done tt))).

(** [await p] for a promise [p] of the platform that settles with [a]. *)
Definition settles {A} (a : A) : Async A :=
  bind pause (fun _ => ret a).

(** [await f(...)] for an [async] function [f]: the callee runs up to its
    first [await] at once, and the caller continues in a later turn of the
    event loop than the one in which the callee returned. *)
Definition await {A} (m : Async A) : Async A :=
  bind m settles.

(** [try { m } catch (e) { h e }] *)
Definition try_catch {A} (m : Async (outcome A)) (h : thrown -> Async A) : Async A :=
  bind m (fun r => match r with
                   | Ok a => ret a
                   | Throw e => h e
                   end).

(** Sequencing inside a [try] block: a [Throw] skips the rest. *)
Definition bind_ok {A B} (m : Async (outcome A)) (f : A -> Async (outcome B))
  : Async (outcome B) :=
  bind m (fun r => match r with
                   | Ok a => f a
                   | Throw e => ret (Throw e)
                   end).

(** Induction on a resumption, with the hypothesis for what is left after
    each resumption. *)
Fixpoint res_rect' {A} (P : res A -> Type)
    (HDone : forall a, P (Done a))
    (HWait : forall k, (forall s, P (k s).2) -> P (Wait k))
    (r : res A) : P r :=
  match r with
  | Done a => HDone a
  | Wait k => HWait k (fun s => res_rect' P HDone HWait (k s).2)
  end.

(** [all_blocks R Post r]: every uninterrupted piece that is left of [r]
    takes the state it is resumed on to one related to it by [R], and the
    value [r] ends with satisfies [Post]. *)
Inductive all_blocks {A} (R : St -> St -> Prop) (Post : A -> Prop) : res A -> Prop :=
| blocks_done a :
    Post a -> all_blocks R Post (Done a)
| blocks_wait k :
    (forall s, R s (k s).1) ->
    (forall s, all_blocks R Post (k s).2) ->
    all_blocks R Post (Wait k).

(** The same for a computation that has not started yet. *)
Definition runs {A} (R : St -> St -> Prop) (Post : A -> Prop) (m : Async A) : Prop :=
  forall s, R s (m s).1 /\ all_blocks R Post (m s).2.

Definition is_wait {A} (r : res A) : bool :=
  match r with
  | Wait _ => true
  | Done _ => false
  end.

(** Running what is left of a computation to its end without letting
    anything else in between. *)
Fixpoint drain (r : res unit) (s : St) : St :=
  match r with
  | Done _ => s
  | Wait k => let '(s', r') := k s in drain r' s'
  end.

End Async.

Arguments res St A : clear implicits.
Arguments Async St A : clear implicits.
Arguments Done {St A} a.
Arguments Wait {St A} k.
Arguments is_wait {St A} r.

Notation "'let*' x := m 'in' k" := (bind m (fun x => k))
  (at level 10, x name, m at level 100, k at level 200).
Notation "'try*' x := m 'in' k" := (bind_ok m (fun x => k))
  (at level 10, x name, m at level 100, k at level 200).

(* ===================================================================== *)
(** * The chunked scheduler ([processDownloadQueue]) *)
(* ===================================================================== *)

Module Scheduler.

(** [Array.prototype.slice]: a negative index counts from the end, and both
    ends are clamped to the array. *)
Definition clamp_index (len i : Z) : Z :=
  if (i <? 0)%Z then Z.max (len + i) 0 else Z.min i len.

Definition slice {A} (l : list A) (start stop : Z) : list A :=
  let len := Z.of_nat (length l) in
  let from := clamp_index len start in
  let upto := clamp_index len stop in
  take (Z.to_nat (upto - from)) (drop (Z.to_nat from) l).

(** The first loop of [processDownloadQueue]:
    [for (let i = 0; i < queue.length; i += maxConcurrent)
       chunks.push(queue.slice(i, i + maxConcurrent))].
    Each unit of [fuel] pays for one test of the loop condition; [None]
    means that the loop was still running when the fuel ran out. *)
Fixpoint build_chunks {A} (fuel : nat) (queue : list A) (maxConcurrent i : Z)
    (chunks : list (list A)) : option (list (list A)) :=
  match fuel with
  | O => None
  | S fuel' =>
      if (i <? Z.of_nat (length queue))%Z
      then build_chunks fuel' queue maxConcurrent (i + maxConcurrent)
             (chunks ++ [slice queue i (i + maxConcurrent)])
      else Some chunks
  end.

(** What an observer of the scheduler sees: thunk number [i] of the queue
    being called, and its promise being seen settled by [Promise.all]. *)
Inductive sev : Type :=
| Launched (i : nat)
| Settled (i : nat).

Definition ceil_div (n k : nat) : nat := (n + k - 1) / k.

(** Chunk number [j] of a queue cut every [k] entries. *)
Definition chunk_at {A} (queue : list A) (k j : nat) : list A :=
  take k (drop (j * k) queue).

Definition chunks_of {A} (queue : list A) (k : nat) : list (list A) :=
  map (chunk_at queue k) (seq 0 (ceil_div (length queue) k)).

(** The traces in which the chunks follow each other: the thunks of a chunk
    are called in queue order, then they settle in some order, and only then
    does the next chunk begin. *)
Inductive chunked_trace : list (list nat) -> list sev -> Prop :=
| chunked_nil :
    chunked_trace [] []
| chunked_cons chunk rest order tr :
    order ≡ₚ chunk ->
    chunked_trace rest tr ->
    chunked_trace (chunk :: rest) (map Launched chunk ++ map Settled order ++ tr).

Section Run.
Context {St : Type}.

(** A queue entry: [() => Promise<void>].  The thunks of this service never
    reject (see [download_task]). *)
Definition thunk : Type := Async St unit.

Definition indexed (queue : list thunk) : list (nat * thunk) :=
  imap (fun i task => (i, task)) queue.

(** [chunk.map(task => task())]: every thunk of the chunk is called, in
    order, and runs up to its first [await]. *)
Fixpoint launch_all (chunk : list (nat * thunk)) (s : St)
  : St * list (nat * res St unit) :=
  match chunk with
  | [] => (s, [])
  | (i, task) :: rest =>
      let '(s1, r) := task s in
      let '(s2, pool) := launch_all rest s1 in
      (s2, (i, r) :: pool)
  end.

(** [await Promise.all(...)]: the event loop resumes the suspended thunks
    of the chunk in any order, one uninterrupted piece at a time, and
    [Promise.all] sees each promise settle; the [await] returns when none
    is left. *)
Inductive run_pool : list (nat * res St unit) -> St -> list sev -> St -> list sev -> Prop :=
| pool_empty s tr :
    run_pool [] s tr s tr
| pool_resume p1 i k p2 s tr s' r' sf trf :
    k s = (s', r') ->
    run_pool (p1 ++ (i, r') :: p2) s' tr sf trf ->
    run_pool (p1 ++ (i, Wait k) :: p2) s tr sf trf
| pool_settle p1 i p2 s tr sf trf :
    run_pool (p1 ++ p2) s (tr ++ [Settled i]) sf trf ->
    run_pool (p1 ++ (i, Done tt) :: p2) s tr sf trf.

(** The second loop: the chunks one after the other. *)
Inductive run_chunks : list (list (nat * thunk)) -> St -> list sev -> St -> list sev -> Prop :=
| chunks_nil s tr :
    run_chunks [] s tr s tr
| chunks_cons chunk rest s tr s1 pool s2 tr2 sf trf :
    launch_all chunk s = (s1, pool) ->
    run_pool pool s1 (tr ++ map Launched chunk.*1) s2 tr2 ->
    run_chunks rest s2 tr2 sf trf ->
    run_chunks (chunk :: rest) s tr sf trf.

(** [processDownloadQueue queue maxConcurrent] started in state [s] returns
    in state [sf], the observer having seen [trf]. *)
Inductive processDownloadQueue (queue : list thunk) (maxConcurrent : Z) (s : St)
  : St -> list sev -> Prop :=
| pdq_run fuel chunks sf trf :
    build_chunks fuel (indexed queue) maxConcurrent 0 [] = Some chunks ->
    run_chunks chunks s [] sf trf ->
    processDownloadQueue queue maxConcurrent s sf trf.

(** One schedule among those [run_pool] allows, as a function: the thunks
    of a chunk finish one after the other, in queue order. *)
Fixpoint run_in_order (pool : list (nat * res St unit)) (s : St) (tr : list sev)
  : St * list sev :=
  match pool with
  | [] => (s, tr)
  | (i, r) :: rest => run_in_order rest (drain r s) (tr ++ [Settled i])
  end.

Fixpoint run_chunks_in_order (chunks : list (list (nat * thunk))) (s : St) (tr : list sev)
  : St * list sev :=
  match chunks with
  | [] => (s, tr)
  | chunk :: rest =>
      let '(s1, pool) := launch_all chunk s in
      let '(s2, tr2) := run_in_order pool s1 (tr ++ map Launched chunk.*1) in
      run_chunks_in_order rest s2 tr2
  end.

Definition processDownloadQueue_in_order (fuel : nat) (queue : list thunk)
    (maxConcurrent : Z) (s : St) : option (St * list sev) :=
  match build_chunks fuel (indexed queue) maxConcurrent 0 [] with
  | Some chunks => Some (run_chunks_in_order chunks s [])
  | None => None
  end.

End Run.
Arguments thunk St : clear implicits.

End Scheduler.
Export Scheduler.

(* ===================================================================== *)
(** * The document fetcher ([services/documentFetcherService.ts]) *)
(* ===================================================================== *)

Module Fetcher.

(** What [axios] resolves with, as far as the service looks at it: the
    [content-type] header (the empty string when absent) and how the write
    stream fed by the body ends: [None] for its [finish] event, [Some m]
    for its [error] event with message [m]. *)
Record response : Type := {
  content_type : string;
  written : option string
}.

(** The platform. *)
Record World : Type := {
  DOWNLOAD_DIR : string;                    (* process.env.DOWNLOAD_DIR || 'downloads' *)
  now : nat -> string;                      (* the n-th new Date().toISOString() *)
  hostname : string -> option string;       (* new URL(url).hostname, None when it throws *)
  join : string -> string -> string;        (* path.join *)
  basename : string -> string;              (* path.basename *)
  dirname : string -> string;               (* path.dirname *)
  ensureDir : string -> outcome unit;       (* fs.ensureDir *)
  axios_get : string -> outcome response;   (* axios({ method: 'GET', url, ... }) *)
  stat_size : string -> outcome N;          (* (await fs.stat(path)).size *)
  finalize : string -> outcome unit         (* the archive written to this path *)
}.

Record zip_entry : Type := {
  source : string;
  name : string
}.

Inductive file : Type :=
| Downloaded (url : string)
| ZipFile (entries : list zip_entry).

(** The state the pieces of a job share: the Socket.IO server, the number
    of clock reads so far, the local variables [results] and
    [completedTasks] of [processExcelFile] that the queued closures
    capture, and the files written. *)
Record st : Type := {
  io : Server;
  clock : nat;
  results : list DocumentFetcherResult;
  completedTasks : nat;
  disk : gmap string file
}.

Definition with_io (f : Server -> Server) (s : st) : st :=
  {| io := f (io s); clock := clock s; results := results s;
     completedTasks := completedTasks s; disk := disk s |}.

Definition push (r : DocumentFetcherResult) (s : st) : st :=
  {| io := io s; clock := clock s; results := results s ++ [r];
     completedTasks := completedTasks s; disk := disk s |}.

Definition incr_completed (s : st) : st :=
  {| io := io s; clock := clock s; results := results s;
     completedTasks := S (completedTasks s); disk := disk s |}.

Definition write_file (path : string) (f : file) (s : st) : st :=
  {| io := io s; clock := clock s; results := results s;
     completedTasks := completedTasks s; disk := <[path := f]> (disk s) |}.

(** [const results = []; let completedTasks = 0] *)
Definition fresh_locals (s : st) : st :=
  {| io := io s; clock := clock s; results := [];
     completedTasks := 0; disk := disk s |}.

(** [new Date().toISOString()] *)
Definition tick (w : World) (s : st) : st * string :=
  ({| io := io s; clock := S (clock s); results := results s;
      completedTasks := completedTasks s; disk := disk s |},
   now w (clock s)).

Definition timestamp (w : World) : Async st string := sync (tick w).

Definition emit (jobId event : string) (data : payload) : Async st unit :=
  sync (fun s => (with_io (fun io => emitProgress io jobId event data) s, tt)).

(** ** Links *)

(** The class [[a-zA-Z0-9-_]] *)
Definition is_id_char (c : ascii) : bool :=
  in_range 97 122 c || in_range 65 90 c || in_range 48 57 c ||
  is_char "-" c || is_char "_" c.

Fixpoint match_prefix (lits : list (ascii -> bool)) (s : string) : option string :=
  match lits with
  | [] => Some s
  | p :: lits' =>
      match s with
      | EmptyString => None
      | String c rest => if p c then match_prefix lits' rest else None
      end
  end.

Fixpoint take_while (p : ascii -> bool) (s : string) : string :=
  match s with
  | EmptyString => EmptyString
  | String c rest => if p c then String c (take_while p rest) else EmptyString
  end.

(** The pattern [lits([a-zA-Z0-9-_]+)] tried at the head of [s]; the result
    is the capture group. *)
Definition match_here (lits : list (ascii -> bool)) (s : string) : option string :=
  match match_prefix lits s with
  | Some rest =>
      let capture := take_while is_id_char rest in
      if truthy_string capture then Some capture else None
  | None => None
  end.

(** [s.match(pattern)]: the leftmost position at which the pattern
    matches. *)
Fixpoint regex_match (lits : list (ascii -> bool)) (s : string) : option string :=
  match match_here lits s with
  | Some capture => Some capture
  | None =>
      match s with
      | EmptyString => None
      | String _ rest => regex_match lits rest
      end
  end.

Definition lit (x : string) : list (ascii -> bool) :=
  map is_char (list_ascii_of_string x).

Definition patterns : list (list (ascii -> bool)) :=
  [ lit "/d/";
    (fun c => is_char "?" c || is_char "&" c) :: lit "id=";
    lit "/file/d/" ].

Fixpoint first_match (ps : list (list (ascii -> bool))) (s : string) : option string :=
  match ps with
  | [] => None
  | p :: rest =>
      match regex_match p s with
      | Some capture => Some capture
      | None => first_match rest s
      end
  end.

Definition extractFileId (driveUrl : string) : option string :=
  first_match patterns driveUrl.

Definition isValidGoogleDriveLink (w : World) (url : string) : bool :=
  if negb (truthy_string url) then false
  else match hostname w url with
       | Some host =>
           String.eqb host "drive.google.com" &&
           (includes url "/file/d/" || includes url "/open?id=" || includes url "/uc?")
       | None => false
       end.

Definition getFileExtension (contentType originalUrl : string) : string :=
  if includes contentType "pdf" then ".pdf"
  else if includes contentType "jpeg" || includes contentType "jpg" then ".jpg"
  else if includes contentType "png" then ".png"
  else if includes contentType "image" then ".jpg"
  else if includes (toLowerCase originalUrl) ".jpg" ||
          includes (toLowerCase originalUrl) ".jpeg" then ".jpg"
  else if includes (toLowerCase originalUrl) ".png" then ".png"
  else ".pdf".

(** ** One document *)

(** [{ success; filePath?; fileName?; error? }] *)
Record download : Type := {
  d_success : bool;
  d_filePath : option string;
  d_fileName : option string;
  d_error : option string
}.

Definition downloadFileWithProgress (w : World)
    (fileId filePath originalUrl jobId : string) (regNo : jsval) (columnName : string)
  : Async st download :=
  let downloadUrl := "https://drive.google.com/uc?export=download&id=" +:+ fileId in
  let* t0 := timestamp w in
  let* _ := emit jobId "document-fetcher:download-start"
              (DownloadStart jobId regNo columnName downloadUrl t0) in
  let* answer := settles (axios_get w downloadUrl) in
  match answer with
  | Ok response =>
      let contentType := content_type response in
      let extension := getFileExtension contentType originalUrl in
      let finalFilePath := filePath +:+ extension in
      let* ending := settles (written response) in
      match ending with
      | None =>
          let* _ := sync (fun s => (write_file finalFilePath (Downloaded downloadUrl) s, tt)) in
          let* t1 := timestamp w in
          let* _ := emit jobId "document-fetcher:download-complete"
                      (DownloadComplete jobId regNo columnName finalFilePath t1) in
          ret {| d_success := true; d_filePath := Some finalFilePath;
                 d_fileName := Some (basename w finalFilePath); d_error := None |}
      | Some message =>
          let* t1 := timestamp w in
          let* _ := emit jobId "document-fetcher:download-error"
                      (DownloadError jobId regNo columnName message t1) in
          ret {| d_success := false; d_filePath := None; d_fileName := None;
                 d_error := Some message |}
      end
  | Throw error =>
      let errorMessage := message_or error "Download failed" in
      let* t1 := timestamp w in
      let* _ := emit jobId "document-fetcher:download-error"
                  (DownloadError jobId regNo columnName errorMessage t1) in
      ret {| d_success := false; d_filePath := None; d_fileName := None;
             d_error := Some errorMessage |}
  end.

Definition truthy_opt (o : option string) : bool :=
  match o with
  | Some s => truthy_string s
  | None => false
  end.

(** [`${regNo}-${columnName}`] *)
Definition item_id (regNo : jsval) (columnName : string) : string :=
  to_string regNo +:+ "-" +:+ columnName.

Definition processDocument (w : World)
    (regNo : jsval) (columnName folderName link jobId : string)
  : Async st DocumentFetcherResult :=
  try_catch
    (match extractFileId link with
     | None =>
         let* t := timestamp w in
         ret (Ok {| r_id := item_id regNo columnName; r_regNo := regNo;
                    r_column := columnName; r_status := failed;
                    r_message := "Invalid Google Drive link";
                    r_filePath := None; r_fileName := None; r_fileSize := None;
                    r_error := None; r_timestamp := t |})
     | Some fileId =>
         let folderPath := join w (DOWNLOAD_DIR w) folderName in
         try* _ := settles (ensureDir w folderPath) in
         let fileName := to_string regNo +:+ "_" +:+ replace_spaces false columnName in
         let filePath := join w folderPath fileName in
         let* fetched :=
           await (downloadFileWithProgress w fileId filePath link jobId regNo columnName) in
         if d_success fetched && truthy_opt (d_filePath fetched)
         then
           let path := default "" (d_filePath fetched) in
           try* size := settles (stat_size w path) in
           let* t := timestamp w in
           ret (Ok {| r_id := item_id regNo columnName; r_regNo := regNo;
                      r_column := columnName; r_status := success;
                      r_message := "Downloaded successfully";
                      r_filePath := Some path;
                      r_fileName := Some (opt_or_default (d_fileName fetched) "unknown");
                      r_fileSize := Some size;
                      r_error := None; r_timestamp := t |})
         else
           let* t := timestamp w in
           ret (Ok {| r_id := item_id regNo columnName; r_regNo := regNo;
                      r_column := columnName; r_status := failed;
                      r_message := opt_or_default (d_error fetched) "Download failed";
                      r_filePath := None; r_fileName := None; r_fileSize := None;
                      r_error := Some (opt_or_default (d_error fetched) "Unknown error");
                      r_timestamp := t |})
     end)
    (fun error =>
       let* t := timestamp w in
       ret {| r_id := item_id regNo columnName; r_regNo := regNo;
              r_column := columnName; r_status := failed;
              r_message := message_or error "Unknown error";
              r_filePath := None; r_fileName := None; r_fileSize := None;
              r_error := Some (message_or error "Unknown error");
              r_timestamp := t |}).

(** ** The queued closure *)

(** [(completedTasks / totalTasks) * 100], taken in the rationals. *)
Definition percent (completed total : nat) : Q :=
  (inject_Z (Z.of_nat completed) / inject_Z (Z.of_nat total)) * inject_Z 100.

(** The closure [processExcelFile] pushes on [downloadQueue]; it captures
    [results], [completedTasks] and [totalTasks]. *)
Definition download_task (w : World)
    (regNo : jsval) (colName folderName link jobId : string) (totalTasks : nat)
  : thunk st :=
  let* result := await (processDocument w regNo colName folderName link jobId) in
  sync (fun s =>
    let s1 := incr_completed (push result s) in
    let '(s2, t) := tick w s1 in
    (with_io (fun io =>
       emitProgress io jobId "document-fetcher:progress"
         (ItemProgress jobId (completedTasks s1) totalTasks
            (percent (completedTasks s1) totalTasks) result t)) s2, tt)).

(** ** The two loops over the records *)

Definition MAX_CONCURRENT_DOWNLOADS : Z := 20.

(** [row['Reg No'] || row['regNo'] || row['REG NO']] *)
Definition regNo_of (row : StudentRecord) : jsval :=
  or_else (or_else (get row "Reg No") (get row "regNo")) (get row "REG NO").

(** [Object.entries(config.columnMapping || {})] *)
Definition mapping (config : DocumentFetcherConfig) : list (string * string) :=
  default [] (columnMapping config).

(** [link && typeof link === 'string' && isValidGoogleDriveLink(link)] *)
Definition countable_link (w : World) (link : jsval) : bool :=
  to_boolean link &&
  match link with
  | JStr url => isValidGoogleDriveLink w url
  | _ => false
  end.

(** The counters [(totalTasks, skippedTasks)] after one turn of the inner
    loop of the first loop. *)
Definition count_column (w : World) (row : StudentRecord)
    (counters : nat * nat) (entry : string * string) : nat * nat :=
  if countable_link w (get row entry.1)
  then (S counters.1, counters.2)
  else (counters.1, S counters.2).

(** The counters after one record; a falsy entry of [data] is [None]. *)
Definition count_row (w : World) (config : DocumentFetcherConfig)
    (counters : nat * nat) (row : option StudentRecord) : nat * nat :=
  match row with
  | None => counters
  | Some row =>
      if negb (to_boolean (regNo_of row))
      then (counters.1, S counters.2)
      else fold_left (count_column w row) (mapping config) counters
  end.

Definition count_tasks (w : World) (config : DocumentFetcherConfig)
    (data : list (option StudentRecord)) : nat * nat :=
  fold_left (count_row w config) data (0, 0).

Definition skipped_result (rid : string) (regNo : jsval) (column message t : string)
  : DocumentFetcherResult :=
  {| r_id := rid; r_regNo := regNo; r_column := column; r_status := skipped;
     r_message := message; r_filePath := None; r_fileName := None;
     r_fileSize := None; r_error := None; r_timestamp := t |}.

Definition push_skipped (w : World) (rid : string) (regNo : jsval)
    (column message : string) (s : st) : st :=
  let '(s1, t) := tick w s in
  push (skipped_result rid regNo column message t) s1.

(** One turn of the inner loop of the second loop. *)
Definition prepare_column (w : World) (jobId : string) (totalTasks : nat)
    (row : StudentRecord) (regNo : jsval)
    (acc : st * list (thunk st)) (entry : string * string) : st * list (thunk st) :=
  let '(colName, folderName) := entry in
  let link := get row colName in
  match link with
  | JStr url =>
      if negb (truthy_string url)
      then (push_skipped w (item_id regNo colName) regNo colName "No link provided" acc.1,
            acc.2)
      else if negb (isValidGoogleDriveLink w url)
      then (push_skipped w (item_id regNo colName) regNo colName
              "Invalid Google Drive link" acc.1,
            acc.2)
      else (acc.1,
            acc.2 ++ [download_task w regNo colName folderName url jobId totalTasks])
  | _ =>
      (push_skipped w (item_id regNo colName) regNo colName "No link provided" acc.1,
       acc.2)
  end.

(** The second loop from index [i] on. *)
Fixpoint prepare (w : World) (config : DocumentFetcherConfig) (jobId : string)
    (totalTasks : nat) (i : nat) (data : list (option StudentRecord))
    (acc : st * list (thunk st)) : st * list (thunk st) :=
  match data with
  | [] => acc
  | None :: rest => prepare w config jobId totalTasks (S i) rest acc
  | Some row :: rest =>
      let regNo := regNo_of row in
      if negb (to_boolean regNo)
      then prepare w config jobId totalTasks (S i) rest
             (push_skipped w ("row-" +:+ pretty (i + 1)) (JStr ("Row " +:+ pretty (i + 1)))
                "N/A" "No registration number found" acc.1,
              acc.2)
      else prepare w config jobId totalTasks (S i) rest
             (fold_left (prepare_column w jobId totalTasks row regNo) (mapping config) acc)
  end.

(** ** The archive *)

Definition zip_entry_of (w : World) (result : DocumentFetcherResult) : option zip_entry :=
  match r_status result, r_filePath result with
  | success, Some path =>
      if truthy_string path
      then Some {| source := path;
                   name := basename w (dirname w path) +:+ "/" +:+ basename w path |}
      else None
  | _, _ => None
  end.

Definition zip_entries (w : World) (results : list DocumentFetcherResult) : list zip_entry :=
  omap (zip_entry_of w) results.

Definition zip_path (w : World) (jobId : string) : string :=
  join w (DOWNLOAD_DIR w) ("documents_" +:+ jobId +:+ ".zip").

(** The promise resolves with the path when the output stream closes and
    rejects when the archiver reports an error. *)
Definition createZipArchive (w : World) (jobId : string)
    (results : list DocumentFetcherResult) (s : st) : st * outcome string :=
  let zipPath := zip_path w jobId in
  match finalize w zipPath with
  | Ok _ => (write_file zipPath (ZipFile (zip_entries w results)) s, Ok zipPath)
  | Throw err => (s, Throw err)
  end.

(** ** The service *)

Inductive job_result : Type :=
| Resolved (results : list DocumentFetcherResult)
| Rejected (error : thrown).

(** [config.maxConcurrent || MAX_CONCURRENT_DOWNLOADS] *)
Definition concurrency (config : DocumentFetcherConfig) : Z :=
  if (maxConcurrent config =? 0)%Z then MAX_CONCURRENT_DOWNLOADS else maxConcurrent config.

(** From the declaration of the locals to the start event. *)
Definition start (w : World) (data : list (option StudentRecord))
    (config : DocumentFetcherConfig) (jobId : string) (s : st) : st :=
  let totals := count_tasks w config data in
  let '(s1, t) := tick w (fresh_locals s) in
  with_io (fun io =>
    emitProgress io jobId "document-fetcher:start"
      (ServiceStart jobId (length data) totals.1 totals.2 totals.1 t)) s1.

(** From the archive to the end of the [try] statement. *)
Definition finish (w : World) (jobId : string) (skippedTasks : nat) (s : st)
  : st * job_result :=
  match createZipArchive w jobId (results s) s with
  | (s1, Ok zipPath) =>
      let '(s2, t) := tick w s1 in
      (with_io (fun io =>
         emitCompletion io jobId "document-fetcher:complete"
           (ServiceComplete jobId (completedTasks s) skippedTasks zipPath (results s) t)) s2,
       Resolved (results s))
  | (s1, Throw error) =>
      let '(s2, t) := tick w s1 in
      (with_io (fun io => emitError io jobId "document-fetcher:error" error t) s2,
       Rejected error)
  end.

(** [processExcelFile(data, config, jobId, io)] called in state [s] settles
    in state [sf] with [out].  [cleanupOldFiles] only removes files older
    than a day and swallows its own errors; it is left out. *)
Inductive processExcelFile (w : World) (data : list (option StudentRecord))
    (config : DocumentFetcherConfig) (jobId : string) (s : st)
  : st -> job_result -> Prop :=
| service_no_directory error :
    ensureDir w (DOWNLOAD_DIR w) = Throw error ->
    processExcelFile w data config jobId s s (Rejected error)
| service_run s1 queue s2 tr sf out :
    ensureDir w (DOWNLOAD_DIR w) = Ok tt ->
    prepare w config jobId (count_tasks w config data).1 0 data
      (start w data config jobId s, []) = (s1, queue) ->
    processDownloadQueue queue (concurrency config) s1 s2 tr ->
    finish w jobId (count_tasks w config data).2 s2 = (sf, out) ->
    processExcelFile w data config jobId s sf out.

(** ** The background driver ([routes/documentFetcher.ts]) *)

Definition driver_start (w : World) (data : list (option StudentRecord))
    (config : DocumentFetcherConfig) (jobId : string) (s : st) : st :=
  let '(s1, t) := tick w s in
  with_io (fun io =>
    emitProgress io jobId "document-fetcher:start"
      (DriverStart jobId (length data) config t)) s1.

Definition driver_complete (w : World) (jobId : string)
    (result : list DocumentFetcherResult) (s : st) : st :=
  let '(s1, t) := tick w s in
  with_io (fun io =>
    emitCompletion io jobId "document-fetcher:complete" (DriverComplete jobId result t)) s1.

Definition driver_error (w : World) (jobId : string) (error : thrown) (s : st) : st :=
  let '(s1, t) := tick w s in
  with_io (fun io => emitError io jobId "document-fetcher:error" error t) s1.

Inductive processDocumentsInBackground (w : World) (data : list (option StudentRecord))
    (config : DocumentFetcherConfig) (jobId : string) (s : st) : st -> Prop :=
| background_complete s1 result :
    processExcelFile w data config jobId (driver_start w data config jobId s) s1
      (Resolved result) ->
    processDocumentsInBackground w data config jobId s (driver_complete w jobId result s1)
| background_error s1 error :
    processExcelFile w data config jobId (driver_start w data config jobId s) s1
      (Rejected error) ->
    processDocumentsInBackground w data config jobId s (driver_error w jobId error s1).

(** ** What the pieces of a queued closure do to the shared state *)

Definition download_events : list string :=
  [ "document-fetcher:download-start";
    "document-fetcher:download-complete";
    "document-fetcher:download-error" ].

(** A piece that leaves [results] and [completedTasks] alone and sends
    download events at most. *)
Definition quiet (s s' : st) : Prop :=
  results s' = results s /\
  completedTasks s' = completedTasks s /\
  exists sent, outbox (io s') = outbox (io s) ++ sent /\
               Forall (fun e => em_event e ∈ download_events) sent.

(** The last piece of a closure: one result, one more completed task and
    the progress event that reports them. *)
Definition final (jobId : string) (totalTasks : nat) (s s' : st) : Prop :=
  exists result t,
    (r_status result = success \/ r_status result = failed) /\
    results s' = results s ++ [result] /\
    completedTasks s' = S (completedTasks s) /\
    outbox (io s') = outbox (io s) ++
      emits jobId "document-fetcher:progress"
        (ItemProgress jobId (S (completedTasks s)) totalTasks
           (percent (S (completedTasks s)) totalTasks) result t).

(** A closure that has been called and has its last piece still to run. *)
Inductive pending_task (jobId : string) (totalTasks : nat) : res st unit -> Prop :=
| pending_quiet k :
    (forall s, quiet s (k s).1) ->
    (forall s, pending_task jobId totalTasks (k s).2) ->
    pending_task jobId totalTasks (Wait k)
| pending_final k :
    (forall s, final jobId totalTasks s (k s).1) ->
    (forall s, (k s).2 = Done tt) ->
    pending_task jobId totalTasks (Wait k).

(** What every result of [processDocument] looks like. *)
Definition settled_result (r : DocumentFetcherResult) : Prop :=
  r_status r = success \/ r_status r = failed.

(** What [processDocument] can return for an item: a success with its
    artifact; or a failure, which is the link without a file id (a message
    and no [error]), the download that did not succeed (an [error] that is
    not empty), or a caught exception (its message, or a default for what
    is not an [Error], as [message] and as [error]). *)
Definition document_result (regNo : jsval) (columnName : string)
    (r : DocumentFetcherResult) : Prop :=
  r_id r = item_id regNo columnName /\ r_regNo r = regNo /\ r_column r = columnName /\
  ((r_status r = success /\ r_error r = None /\
    exists path, r_filePath r = Some path /\ path <> "") \/
   (r_status r = failed /\ r_filePath r = None /\
    ((r_message r = "Invalid Google Drive link" /\ r_error r = None) \/
     (exists e, r_error r = Some e /\ e <> "" /\ r_message r <> "") \/
     (exists caught, r_error r = Some (message_or caught "Unknown error") /\
                     r_message r = message_or caught "Unknown error")))).

(** The number of closures of a pool that have their last piece to run. *)
Definition pend (pool : list (nat * res st unit)) : nat :=
  List.length (List.filter (fun x => is_wait x.2) pool).

Definition slot_ok (jobId : string) (totalTasks : nat) (r : res st unit) : Prop :=
  pending_task jobId totalTasks r \/ r = Done tt.

Definition task_ok (jobId : string) (totalTasks : nat) (task : thunk st) : Prop :=
  forall s, quiet s (task s).1 /\ pending_task jobId totalTasks (task s).2.

(** What a closure may have sent by the time the shared state is [s], the
    results before the first closure ran being [pre]: a download event, or
    a progress event that reports the [current]-th result of the
    closures. *)
Definition task_emission (jobId : string) (totalTasks : nat)
    (pre : list DocumentFetcherResult) (s : st) (e : emission) : Prop :=
  em_event e ∈ download_events \/
  (em_event e = "document-fetcher:progress" /\
   exists current result t,
     em_data e = ItemProgress jobId current totalTasks (percent current totalTasks) result t /\
     1 <= current <= completedTasks s /\
     results s !! (List.length pre + current - 1) = Some result).

(** The invariant of the queue: the closures have pushed [completedTasks]
    settled results after [pre], and sent task emissions after [box0]. *)
Record job_inv (jobId : string) (totalTasks : nat) (pre : list DocumentFetcherResult)
    (box0 : list emission) (s : st) : Prop := {
  inv_results : exists done, results s = pre ++ done /\
                             List.length done = completedTasks s /\
                             Forall settled_result done;
  inv_outbox : exists mid, outbox (io s) = box0 ++ mid /\
                           Forall (task_emission jobId totalTasks pre s) mid
}.

(** [prep_rel dt ds acc acc']: the second loop went from [acc] to [acc']
    queueing [dt] closures and pushing [ds] skipped results, and did nothing
    else. *)
Definition prep_rel (jobId : string) (totalTasks : nat) (dt ds : nat)
    (acc acc' : st * list (thunk st)) : Prop :=
  List.length acc'.2 = List.length acc.2 + dt /\
  (exists sk, results acc'.1 = results acc.1 ++ sk /\ List.length sk = ds /\
              Forall (fun r => r_status r = skipped) sk) /\
  completedTasks acc'.1 = completedTasks acc.1 /\
  outbox (io acc'.1) = outbox (io acc.1) /\
  disk acc'.1 = disk acc.1 /\
  (Forall (task_ok jobId totalTasks) acc.2 -> Forall (task_ok jobId totalTasks) acc'.2).

(** A result that gets an entry in the archive. *)
Definition archived (r : DocumentFetcherResult) : bool :=
  status_eqb (r_status r) success && truthy_opt (r_filePath r).

(** ** A reference schedule, as functions *)

Definition processExcelFile_in_order (fuel : nat) (w : World)
    (data : list (option StudentRecord)) (config : DocumentFetcherConfig)
    (jobId : string) (s : st) : option (st * job_result) :=
  match ensureDir w (DOWNLOAD_DIR w) with
  | Throw error => Some (s, Rejected error)
  | Ok _ =>
      let '(s1, queue) :=
        prepare w config jobId (count_tasks w config data).1 0 data
          (start w data config jobId s, []) in
      match processDownloadQueue_in_order fuel queue (concurrency config) s1 with
      | Some (s2, _) => Some (finish w jobId (count_tasks w config data).2 s2)
      | None => None
      end
  end.

Definition processDocumentsInBackground_in_order (fuel : nat) (w : World)
    (data : list (option StudentRecord)) (config : DocumentFetcherConfig)
    (jobId : string) (s : st) : option st :=
  match processExcelFile_in_order fuel w data config jobId
          (driver_start w data config jobId s) with
  | Some (s1, Resolved result) => Some (driver_complete w jobId result s1)
  | Some (s1, Rejected error) => Some (driver_error w jobId error s1)
  | None => None
  end.

(** ** A sample platform and sample inputs *)

(** [path.dirname] and [path.basename] of the POSIX flavour, on a normalised
    path without a trailing slash: the parts before and after the last
    slash. *)
Fixpoint split_last_slash (path : string) : option (string * string) :=
  match path with
  | EmptyString => None
  | String c rest =>
      match split_last_slash rest with
      | Some (dir, base) => Some (String c dir, base)
      | None => if is_char "/" c then Some (EmptyString, rest) else None
      end
  end.

Definition posix_basename (path : string) : string :=
  match split_last_slash path with
  | Some (_, base) => base
  | None => path
  end.

Definition posix_dirname (path : string) : string :=
  match split_last_slash path with
  | Some (dir, _) => if truthy_string dir then dir else "/"
  | None => "."
  end.

Fixpoint drop_chars (n : nat) (s : string) : string :=
  match n, s with
  | S n', String _ rest => drop_chars n' rest
  | _, _ => s
  end.

(** The host of a link [https://host/...] or [http://host/...] written with
    a lower-case host, no credentials and no port. *)
Definition plain_hostname (url : string) : option string :=
  let stop c := is_char "/" c || is_char "?" c || is_char "#" c in
  if String.prefix "https://" url
  then Some (take_while (fun c => negb (stop c)) (drop_chars 8 url))
  else if String.prefix "http://" url
  then Some (take_while (fun c => negb (stop c)) (drop_chars 7 url))
  else None.

(** A platform on which every operation succeeds and every download is a
    PDF of one kilobyte. *)
Definition plain_world : World :=
  {| DOWNLOAD_DIR := "downloads";
     now := fun n => "T" +:+ pretty n;
     hostname := plain_hostname;
     join := fun a b => a +:+ "/" +:+ b;
     basename := posix_basename;
     dirname := posix_dirname;
     ensureDir := fun _ => Ok tt;
     axios_get := fun _ => Ok {| content_type := "application/pdf"; written := None |};
     stat_size := fun _ => Ok 1024%N;
     finalize := fun _ => Ok tt |}.


(** The same platform on which the archive cannot be written. *)
Definition no_archive_world : World :=
  {| DOWNLOAD_DIR := "downloads";
     now := now plain_world;
     hostname := plain_hostname;
     join := join plain_world;
     basename := posix_basename;
     dirname := posix_dirname;
     ensureDir := fun _ => Ok tt;
     axios_get := axios_get plain_world;
     stat_size := stat_size plain_world;
     finalize := fun _ =>
       Throw (ErrorObj "EACCES: permission denied, open 'downloads/Photos/R1_A_B.pdf'") |}.

Definition empty_state : st :=
  {| io := {| rooms := ∅; outbox := [] |}; clock := 0; results := [];
     completedTasks := 0; disk := ∅ |}.

Definition sample_config (maxConcurrent : Z) (columns : list (string * string))
  : DocumentFetcherConfig :=
  {| maxConcurrent := maxConcurrent; timeout := 30000; autoOrganize := true;
     columnMapping := Some columns |}.

(** One record with two links; the two column names differ in white space
    only and go to the same folder. *)
Definition sample_row : StudentRecord :=
  <["Reg No" := JStr "R1"]>
    (<["A B" := JStr "https://drive.google.com/file/d/abc/view"]>
       (<["A_B" := JStr "https://drive.google.com/file/d/xyz/view"]> ∅)).

Definition sample_columns : list (string * string) :=
  [("A B", "Photos"); ("A_B", "Photos")].

(** The results of the sample job on the sample platform. *)
Definition sample_results : list DocumentFetcherResult :=
  match processExcelFile_in_order 5 plain_world [Some sample_row]
          (sample_config 2 sample_columns) "job" empty_state with
  | Some (_, Resolved rs) => rs
  | _ => []
  end.

(** A link that [isValidGoogleDriveLink] accepts and that holds no file
    id. *)
Definition link_without_id : string := "https://drive.google.com/uc?export=download".

End Fetcher.

Import Fetcher.

(* ===================================================================== *)
(** * What clients and observers see *)
(* ===================================================================== *)

(** The copies of the emissions [box] that reach the socket [sid] on the
    server [io]: Socket.IO delivers an emission to every socket of its
    audience. *)
Definition received (io : Server) (sid : socket_id) (box : list emission) : list emission :=
  List.filter (fun e => bool_decide (sid ∈ audience io (em_target e))) box.

(** The thunks an observer of the scheduler has seen called and not yet
    seen settled. *)
Fixpoint in_flight (tr : list sev) : Z :=
  match tr with
  | [] => 0
  | Launched _ :: rest => in_flight rest + 1
  | Settled _ :: rest => in_flight rest - 1
  end.

(** The [current] fields of the progress events in [box], one per call of
    [emitProgress] (the copy sent to everyone), oldest first. *)
Definition progress_numbers (box : list emission) : list nat :=
  omap (fun e =>
          match em_target e, em_data e with
          | ToAll, ItemProgress _ current _ _ _ _ =>
              if String.eqb (em_event e) "document-fetcher:progress"
              then Some current else None
          | _, _ => None
          end) box.

(** What the service has sent after [box0] reports the completed tasks one
    by one. *)
Definition counted_up (box0 : list emission) (s : st) : Prop :=
  exists mid, outbox (io s) = box0 ++ mid /\
              progress_numbers mid = seq 1 (completedTasks s).

(** The second pattern of [extractFileId], [[?&]id=]. *)
Definition by_id : list (ascii -> bool) :=
  (fun c => is_char "?" c || is_char "&" c) :: lit "id=".



(* ===================================================================== *)
(** * The download route ([routes/documentFetcher.ts]) *)
(* ===================================================================== *)

Module Routes.



End Routes.

(* ===================================================================== *)
(** * Password strength, the single and the bulk generator *)
(* ===================================================================== *)

Module Generator.
Import Password.

(** [/[class]/.test(s)] for a character class. *)
Fixpoint test (class : ascii -> bool) (s : string) : bool :=
  match s with
  | EmptyString => false
  | String c rest => class c || test class rest
  end.

Definition is_lower (c : ascii) : bool := in_range 97 122 c.
Definition is_upper (c : ascii) : bool := in_range 65 90 c.
Definition is_digit (c : ascii) : bool := in_range 48 57 c.

(** The class [[^a-zA-Z0-9]] *)
Definition is_special (c : ascii) : bool := negb (is_lower c || is_upper c || is_digit c).

(** What [.] does not match, on code units below 256. *)
Definition is_line_terminator (c : ascii) : bool := (code c =? 10)%N || (code c =? 13)%N.

(** [/(.)\1{2,}/.test(s)]: some character other than a line terminator,
    three times in a row. *)
Fixpoint has_repeat (s : string) : bool :=
  match s with
  | EmptyString => false
  | String c rest =>
      (negb (is_line_terminator c) && String.prefix (String c (String c "")) rest) ||
      has_repeat rest
  end.

(** [/123|abc|qwe|asd|zxc/i.test(s)]: on code units below 256 only the
    letters [A] to [Z] fold to the letters of these sequences. *)
Definition has_common_sequence (s : string) : bool :=
  let folded := toLowerCase s in
  includes folded "123" || includes folded "abc" || includes folded "qwe" ||
  includes folded "asd" || includes folded "zxc".

Inductive Level : Type := weak | fair | good | strong | very_strong.

Record Strength : Type := {
  score : nat;
  level : Level;
  feedback : list string
}.

(** [if (ok) score += 1; else feedback.push(advice)], the [else] being
    absent for [None]. *)
Definition check (ok : bool) (advice : option string) (acc : nat * list string)
  : nat * list string :=
  if ok then (S acc.1, acc.2)
  else match advice with
       | Some text => (acc.1, acc.2 ++ [text])
       | None => acc
       end.

Definition analyzePasswordStrength (password : string) : Strength :=
  let len := String.length password in
  let acc := (0, []) in
  let acc := check (8 <=? len)%nat (Some "Use at least 8 characters") acc in
  let acc := check (12 <=? len)%nat None acc in
  let acc := check (16 <=? len)%nat None acc in
  let acc := check (test is_lower password) (Some "Include lowercase letters") acc in
  let acc := check (test is_upper password) (Some "Include uppercase letters") acc in
  let acc := check (test is_digit password) (Some "Include numbers") acc in
  let acc := check (test is_special password) (Some "Include special characters") acc in
  let acc := check (negb (has_repeat password)) (Some "Avoid repeating characters") acc in
  let acc := check (negb (has_common_sequence password)) (Some "Avoid common sequences") acc in
  let score := acc.1 in
  {| score := score;
     level := if (score <=? 3)%nat then weak
              else if (score <=? 5)%nat then fair
              else if (score <=? 7)%nat then good
              else if (score <=? 9)%nat then strong
              else very_strong;
     feedback := acc.2 |}.

(** [PasswordResult]; its [entropy], the floating-point number
    [Math.log2(Math.pow(new Set(password).size, password.length))], is left
    out. *)
Record PasswordResult : Type := {
  p_id : string;
  p_status : status;
  p_message : string;
  p_error : option string;
  p_password : string;
  p_strength : Strength;
  p_timestamp : string
}.

(** What the generator asks of the platform besides [World]: [random k] are
    the bytes [crypto.getRandomValues] gives to the [k]-th call of
    [createPassword] of a job, [date_now n] is [Date.now()] in decimal at the
    [n]-th reading of the clock by the job ([now w n] being its
    [toISOString]), and [writeFile path] tells how [fs.writeFile] to [path]
    ends. *)
Record Platform : Type := {
  random : nat -> nat -> Byte.byte;
  date_now : nat -> string;
  writeFile : string -> outcome unit
}.

(** [generatePassword(config)] as call number [k], the clock having been
    read [n] times: the clock afterwards and the result. *)
Definition generatePassword (w : World) (p : Platform) (k n : nat) (config : PasswordConfig)
  : nat * outcome PasswordResult :=
  match createPassword (random p k) config with
  | Ok password =>
      (n + 2,
       Ok {| p_id := "pwd-" +:+ date_now p n;
             p_status := success;
             p_message := "Password generated successfully";
             p_error := None;
             p_password := password;
             p_strength := analyzePasswordStrength password;
             p_timestamp := now w (n + 1) |})
  | Throw error => (n, Throw error)
  end.

(** An [ApiResponse] with its HTTP status. *)
Inductive ApiResponse (A : Type) : Type :=
| Answer (code : nat) (data : A) (message : string)
| Refusal (code : nat) (error : string).
Arguments Answer {A} code data message.
Arguments Refusal {A} code error.

(** [POST /generate] *)
Definition generate (w : World) (p : Platform) (config : PasswordConfig)
  : ApiResponse PasswordResult :=
  if (length config =? 0)%Z || (length config <? 4)%Z || (128 <? length config)%Z
  then Refusal 400 "Password length must be between 4 and 128 characters"
  else match generatePassword w p 0 0 config with
       | (_, Ok result) => Answer 200 result "Password generated successfully"
       | (_, Throw error) => Refusal 500 (message_or error "Failed to generate password")
       end.

Record Files : Type := {
  txt : string;
  csv : string;
  json : string
}.

(** The payloads of the bulk generator. *)
Inductive payload : Type :=
| BulkStart (jobId : string) (total : Z) (config : PasswordConfig) (timestamp : string)
| BulkProgress (jobId : string) (current : nat) (total : Z) (progress : Q)
    (result : PasswordResult) (timestamp : string)
| BulkComplete (jobId : string) (totalProcessed totalFailed : nat) (files : Files)
    (results : list PasswordResult) (timestamp : string)
| BulkError (jobId : string) (error : error_field) (timestamp : string).

Record emission : Type := {
  em_target : target;
  em_event : string;
  em_data : payload
}.

(** What [emitProgress], [emitCompletion] and [emitError] send: the event
    to the job's room, then to everyone. *)
Definition emits (jobId event : string) (data : payload) : list emission :=
  [ {| em_target := ToRoom jobId; em_event := event; em_data := data |};
    {| em_target := ToAll; em_event := event; em_data := data |} ].

(** [((i + 1) / total) * 100], taken in the rationals. *)
Definition percent (current : nat) (total : Z) : Q :=
  (inject_Z (Z.of_nat current) / inject_Z total) * inject_Z 100.

(** What a job carries from one statement to the next: the readings of the
    clock so far, the local [results] and what it has sent. *)
Record job : Type := {
  reads : nat;
  results : list PasswordResult;
  sent : list emission
}.

(** The body of the loop for index [i]. *)
Definition item (w : World) (p : Platform) (config : PasswordConfig) (jobId : string)
    (j : job) (i : nat) : job :=
  match generatePassword w p i (reads j) config with
  | (n, Ok result) =>
      {| reads := n + 1;
         results := results j ++ [result];
         sent := sent j ++
                 emits jobId "password-generator:progress"
                   (BulkProgress jobId (i + 1) (count config) (percent (i + 1) (count config))
                      result (now w n)) |}
  | (n, Throw error) =>
      let errorResult :=
        {| p_id := "pwd-" +:+ pretty i;
           p_status := failed;
           p_message := message_or error "Failed to generate password";
           p_error := Some (message_or error "Unknown error");
           p_password := "";
           p_strength := {| score := 0; level := weak; feedback := [] |};
           p_timestamp := now w n |} in
      {| reads := n + 2;
         results := results j ++ [errorResult];
         sent := sent j ++
                 emits jobId "password-generator:progress"
                   (BulkProgress jobId (i + 1) (count config) (percent (i + 1) (count config))
                      errorResult (now w (n + 1))) |}
  end.

Definition succeeded (r : PasswordResult) : bool := status_eqb (p_status r) success.
Definition has_failed (r : PasswordResult) : bool := status_eqb (p_status r) failed.

(** [createPasswordFiles]: the directory, three files, and the three
    links.  The contents of the files are left out. *)
Definition createPasswordFiles (w : World) (p : Platform) (jobId : string) (n : nat)
  : nat * outcome Files :=
  let passwordDir := join w (DOWNLOAD_DIR w) "passwords" in
  match ensureDir w passwordDir with
  | Throw error => (n, Throw error)
  | Ok _ =>
      let baseFilename := "passwords_" +:+ jobId +:+ "_" +:+ date_now p n in
      let txtPath := join w passwordDir (baseFilename +:+ ".txt") in
      let csvPath := join w passwordDir (baseFilename +:+ ".csv") in
      let jsonPath := join w passwordDir (baseFilename +:+ ".json") in
      match writeFile p txtPath with
      | Throw error => (n + 1, Throw error)
      | Ok _ =>
          match writeFile p csvPath with
          | Throw error => (n + 1, Throw error)
          | Ok _ =>
              match writeFile p jsonPath with
              | Throw error => (n + 2, Throw error)
              | Ok _ =>
                  (n + 2,
                   Ok {| txt := "/api/password-generator/download/" +:+ basename w txtPath;
                         csv := "/api/password-generator/download/" +:+ basename w csvPath;
                         json := "/api/password-generator/download/" +:+ basename w jsonPath |})
              end
          end
      end
  end.

(** The job from its start event to the end of its loop, which runs for
    [i = 0, 1, ...] while [i < config.count]. *)
Definition loop (w : World) (p : Platform) (config : PasswordConfig) (jobId : string) : job :=
  let started :=
    {| reads := 1; results := [];
       sent := emits jobId "password-generator:start"
                 (BulkStart jobId (count config) config (now w 0)) |} in
  fold_left (item w p config jobId) (seq 0 (Z.to_nat (count config))) started.

(** [generateBulkPasswords(config, jobId, io)]: what the job sends, oldest
    first. *)
Definition generateBulkPasswords (w : World) (p : Platform) (config : PasswordConfig)
    (jobId : string) : list emission :=
  let looped := loop w p config jobId in
  match createPasswordFiles w p jobId (reads looped) with
  | (n, Ok files) =>
      sent looped ++
      emits jobId "password-generator:complete"
        (BulkComplete jobId
           (List.length (List.filter succeeded (results looped)))
           (List.length (List.filter has_failed (results looped)))
           files (results looped) (now w n))
  | (n, Throw error) =>
      sent looped ++
      emits jobId "password-generator:error" (BulkError jobId (error_of error) (now w n))
  end.


(** The progress events of the items of indices [i], [i + 1], ..., given
    with their results and timestamps. *)
Fixpoint progress_events (jobId : string) (total : Z) (i : nat)
    (items : list (PasswordResult * string)) : list emission :=
  match items with
  | [] => []
  | (result, timestamp) :: rest =>
      emits jobId "password-generator:progress"
        (BulkProgress jobId (i + 1) total (percent (i + 1) total) result timestamp) ++
      progress_events jobId total (S i) rest
  end.

(** What the turn of the loop for index [i] pushes on [results]. *)
Definition item_outcome (p : Platform) (config : PasswordConfig) (i : nat)
    (r : PasswordResult) : Prop :=
  match createPassword (random p i) config with
  | Ok password =>
      p_status r = success /\ p_error r = None /\ p_password r = password /\
      p_message r = "Password generated successfully"
  | Throw error =>
      p_status r = failed /\ p_id r = "pwd-" +:+ pretty i /\ p_password r = "" /\
      p_message r = message_or error "Failed to generate password" /\
      p_error r = Some (message_or error "Unknown error")
  end.


Definition sample_config (length count : Z) : PasswordConfig :=
  {| Password.length := length; includeUppercase := true; includeLowercase := true;
     includeNumbers := true; includeSymbols := true; excludeSimilar := false;
     excludeAmbiguous := false; customChars := None; Password.count := count |}.

End Generator.

(* ===================================================================== *)
(** * Properties *)
(* ===================================================================== *)

(** ** Audiences and characters *)

Lemma audience_room (io : Server) (room : string) (sid : socket_id) :
  sid ∈ audience io (ToRoom room) <-> exists joined, rooms io !! sid = Some joined /\ room ∈ joined.
Proof.
  simpl. rewrite elem_of_dom. split.
  - intros [joined H]. apply map_lookup_filter_Some in H as [H1 H2]. eauto.
  - intros (joined & H1 & H2). exists joined. apply map_lookup_filter_Some. auto.
Qed.

Lemma audience_all (io : Server) (sid : socket_id) :
  sid ∈ audience io ToAll <-> is_Some (rooms io !! sid).
Proof. simpl. apply elem_of_dom. Qed.

(** A connected socket that asks to join a job is in the audience of the
    job's room, and is out of it again once it has left. *)
Lemma join_job_audience (io : Server) (sid : socket_id) (jobId : string) :
  is_Some (rooms io !! sid) -> sid ∈ audience (join_job sid jobId io) (ToRoom jobId).
Proof.
  intros [joined H]. apply audience_room. exists ({[jobId]} ∪ joined). split.
  - simpl. rewrite lookup_alter_eq, H. reflexivity.
  - set_solver.
Qed.

Lemma leave_job_audience (io : Server) (sid : socket_id) (jobId : string) :
  sid ∉ audience (leave_job sid jobId io) (ToRoom jobId).
Proof.
  rewrite audience_room. intros (joined & H & Hin). simpl in H.
  rewrite lookup_alter_eq in H. destruct (rooms io !! sid) as [before|]; [|discriminate].
  injection H as <-. apply elem_of_difference in Hin as [_ Hout].
  apply Hout, elem_of_singleton. reflexivity.
Qed.

Lemma get_mem n s c : String.get n s = Some c -> mem_char c s = true.
Proof.
  revert n; induction s as [|x s IH]; intros [|n] H; simpl in *; try discriminate.
  - injection H as ->. rewrite Ascii.eqb_refl. reflexivity.
  - rewrite (IH _ H). apply orb_true_r.
Qed.

Lemma get_lt n s : n < String.length s -> exists c, String.get n s = Some c.
Proof.
  revert n; induction s as [|x s IH]; intros [|n] H; simpl in *; try lia; eauto.
  apply IH. lia.
Qed.

(** ** The model on small inputs *)

Example slice_to_negative_end : slice [1; 2; 3; 4] 0 (-1) = [1; 2; 3].
Proof. reflexivity. Qed.

Example slice_past_the_end : slice [1; 2; 3; 4] 2 10 = [3; 4].
Proof. reflexivity. Qed.

Example slice_backwards : slice [1; 2; 3; 4] (-1) (-2) = [].
Proof. reflexivity. Qed.

Example five_by_two :
  build_chunks 10 [1; 2; 3; 4; 5] 2 0 [] = Some [[1; 2]; [3; 4]; [5]].
Proof. reflexivity. Qed.

Example extractFileId_file_link :
  extractFileId "https://drive.google.com/file/d/1aB-c_9/view?usp=sharing" = Some "1aB-c_9".
Proof. reflexivity. Qed.

Example extractFileId_open_link :
  extractFileId "https://drive.google.com/open?id=XyZ&authuser=0" = Some "XyZ".
Proof. reflexivity. Qed.

Example extractFileId_no_id :
  extractFileId "https://drive.google.com/file/d/" = None.
Proof. reflexivity. Qed.

Example isValidGoogleDriveLink_other_host :
  isValidGoogleDriveLink plain_world "https://example.com/file/d/abc" = false.
Proof. reflexivity. Qed.

Example replace_spaces_runs : replace_spaces false "12th  Mark sheet" = "12th_Mark_sheet".
Proof. reflexivity. Qed.

Example getFileExtension_by_type :
  getFileExtension "image/png" "https://drive.google.com/file/d/abc/view" = ".png".
Proof. reflexivity. Qed.

Example getFileExtension_default :
  getFileExtension "application/octet-stream" "https://drive.google.com/file/d/abc/view"
  = ".pdf".
Proof. reflexivity. Qed.

Example percent_of_half : (percent 1 2 == inject_Z 50)%Q.
Proof. reflexivity. Qed.

(** ** The first loop of the scheduler *)

Section SchedulerFacts.
Context {A : Type}.
Implicit Types (queue : list A) (k j n : nat).

Lemma lt_ceil_div n k j : 0 < k -> j < ceil_div n k <-> j * k < n.
Proof.
  intros Hk. unfold ceil_div. split; intros H.
  - destruct (Nat.lt_ge_cases (j * k) n) as [|Hge]; [assumption|exfalso].
    assert ((n + k - 1) / k < S j); [|lia].
    apply Nat.Div0.div_lt_upper_bound. nia.
  - assert (S j <= (n + k - 1) / k); [|lia].
    apply Nat.div_le_lower_bound; [lia|nia].
Qed.

Lemma slice_chunk queue k j :
  0 < k -> j * k < length queue ->
  slice queue (Z.of_nat (j * k)) (Z.of_nat (j * k) + Z.of_nat k) = chunk_at queue k j.
Proof.
  intros Hk Hj. unfold slice, chunk_at, clamp_index.
  destruct (Z.ltb_spec (Z.of_nat (j * k)) 0) as [|_]; [lia|].
  destruct (Z.ltb_spec (Z.of_nat (j * k) + Z.of_nat k) 0) as [|_]; [lia|].
  rewrite (Z.min_l (Z.of_nat (j * k))) by lia.
  rewrite Nat2Z.id.
  destruct (Z.min_spec (Z.of_nat (j * k) + Z.of_nat k) (Z.of_nat (length queue)))
    as [[Hlt ->]|[Hge ->]].
  - f_equal. lia.
  - rewrite !take_ge; [reflexivity| |]; rewrite length_drop; lia.
Qed.

Lemma build_chunks_from fuel queue k j (acc : list (list A)) :
  0 < k -> j <= ceil_div (length queue) k -> ceil_div (length queue) k - j < fuel ->
  build_chunks fuel queue (Z.of_nat k) (Z.of_nat (j * k)) acc
  = Some (acc ++ map (chunk_at queue k) (seq j (ceil_div (length queue) k - j))).
Proof.
  intros Hk. revert j acc. induction fuel as [|fuel IH]; intros j acc Hj Hfuel; [lia|].
  simpl. destruct (Z.ltb_spec (Z.of_nat (j * k)) (Z.of_nat (length queue))) as [Hlt|Hge].
  - assert (j < ceil_div (length queue) k) as Hjlt by (apply lt_ceil_div; lia).
    replace (Z.of_nat (j * k) + Z.of_nat k)%Z with (Z.of_nat (S j * k)) at 1 by lia.
    rewrite IH by lia.
    rewrite slice_chunk by lia.
    replace (ceil_div (length queue) k - j) with (S (ceil_div (length queue) k - S j)) by lia.
    simpl. rewrite <- app_assoc. reflexivity.
  - assert (~ j < ceil_div (length queue) k) as Hjge by (rewrite lt_ceil_div; lia).
    replace (ceil_div (length queue) k - j) with 0 by lia.
    simpl. rewrite app_nil_r. reflexivity.
Qed.

Lemma build_chunks_positive queue (maxConcurrent : Z) fuel :
  (0 < maxConcurrent)%Z -> length queue < fuel ->
  build_chunks fuel queue maxConcurrent 0 [] = Some (chunks_of queue (Z.to_nat maxConcurrent)).
Proof.
  intros Hk Hfuel.
  pose proof (build_chunks_from fuel queue (Z.to_nat maxConcurrent) 0 []) as H.
  rewrite Z2Nat.id in H by lia. simpl in H. rewrite Nat.sub_0_r in H.
  apply H; [lia|lia|].
  assert (~ length queue < ceil_div (length queue) (Z.to_nat maxConcurrent)); [|lia].
  rewrite lt_ceil_div by lia. nia.
Qed.

Lemma build_chunks_stuck fuel queue (maxConcurrent i : Z) (acc : list (list A)) :
  (maxConcurrent <= 0)%Z -> (i <= 0)%Z -> queue <> [] ->
  build_chunks fuel queue maxConcurrent i acc = None.
Proof.
  intros Hk Hi Hq. revert i acc Hi. induction fuel as [|fuel IH]; intros i acc Hi; [reflexivity|].
  simpl. destruct (Z.ltb_spec i (Z.of_nat (length queue))) as [_|Hge].
  - apply IH. lia.
  - destruct queue; [congruence|simpl in Hge; lia].
Qed.

Lemma length_chunks_of queue k : length (chunks_of queue k) = ceil_div (length queue) k.
Proof. unfold chunks_of. rewrite length_map, length_seq. reflexivity. Qed.

Lemma lookup_chunks_of queue k j chunk :
  chunks_of queue k !! j = Some chunk ->
  j < ceil_div (length queue) k /\ chunk = chunk_at queue k j.
Proof.
  unfold chunks_of. rewrite list_lookup_fmap. intros H.
  destruct (seq 0 (ceil_div (length queue) k) !! j) as [x|] eqn:E; [|discriminate].
  apply lookup_seq in E as [-> Hlt]. simpl in H. injection H as <-. auto.
Qed.

Lemma length_chunk_at queue k j :
  length (chunk_at queue k j) = Nat.min k (length queue - j * k).
Proof. unfold chunk_at. rewrite length_take, length_drop. reflexivity. Qed.

Lemma concat_chunks_from queue k j n :
  concat (map (chunk_at queue k) (seq j n)) = take (n * k) (drop (j * k) queue).
Proof.
  revert j. induction n as [|n IH]; intros j; simpl.
  - reflexivity.
  - rewrite IH. unfold chunk_at.
    replace (S j * k) with (j * k + k) by lia.
    rewrite <- drop_drop. rewrite <- take_take_drop. reflexivity.
Qed.

Lemma concat_chunks_of queue k : 0 < k -> concat (chunks_of queue k) = queue.
Proof.
  intros Hk. unfold chunks_of. rewrite concat_chunks_from. simpl.
  apply take_ge.
  pose proof (lt_ceil_div (length queue) k (ceil_div (length queue) k) Hk) as H.
  lia.
Qed.

Lemma chunks_of_single queue k :
  queue <> [] -> length queue <= k -> chunks_of queue k = [queue].
Proof.
  intros Hq Hk. unfold chunks_of.
  assert (length queue <> 0) by (destruct queue; simpl; congruence).
  assert (ceil_div (length queue) k = 1) as ->.
  { assert (0 < k) as Hpos by lia.
    pose proof (lt_ceil_div (length queue) k 0 Hpos) as H0.
    pose proof (lt_ceil_div (length queue) k 1 Hpos) as H1.
    lia. }
  simpl. unfold chunk_at. rewrite Nat.mul_0_l, drop_0, take_ge by lia. reflexivity.
Qed.

End SchedulerFacts.

Section RunFacts.
Context {St : Type}.

Lemma launch_all_indices (chunk : list (nat * thunk St)) (s : St) :
  (launch_all chunk s).2.*1 = chunk.*1.
Proof.
  revert s. induction chunk as [|[i task] chunk IH]; intros s; simpl; [reflexivity|].
  destruct (task s) as [s1 r]. specialize (IH s1).
  destruct (launch_all chunk s1) as [s2 pool]. cbn in *. f_equal. exact IH.
Qed.

Lemma run_pool_trace (pool : list (nat * res St unit)) s tr sf trf :
  run_pool pool s tr sf trf ->
  exists order, order ≡ₚ pool.*1 /\ trf = tr ++ map Settled order.
Proof.
  induction 1 as [s tr|p1 i k p2 s tr s' r' sf trf Hk Hrun IH|p1 i p2 s tr sf trf Hrun IH].
  - exists []. rewrite app_nil_r. auto.
  - destruct IH as (order & Hperm & ->). exists order. split; [|reflexivity].
    rewrite Hperm, !fmap_app. reflexivity.
  - destruct IH as (order & Hperm & ->). exists (i :: order). split.
    + rewrite Hperm, !fmap_app. simpl. apply Permutation_middle.
    + rewrite <- app_assoc. reflexivity.
Qed.

Lemma run_chunks_trace (chunks : list (list (nat * thunk St))) s tr sf trf :
  run_chunks chunks s tr sf trf ->
  exists seen, trf = tr ++ seen /\ chunked_trace (map (fmap fst) chunks) seen.
Proof.
  induction 1 as [s tr|chunk rest s tr s1 pool s2 tr2 sf trf Hlaunch Hpool Hrest IH].
  - exists []. rewrite app_nil_r. split; [reflexivity|constructor].
  - apply run_pool_trace in Hpool as (order & Hperm & ->).
    destruct IH as (seen & -> & Hseen).
    exists (map Launched chunk.*1 ++ map Settled order ++ seen). split.
    + rewrite <- !app_assoc. reflexivity.
    + simpl. constructor; [|assumption].
      rewrite Hperm. pose proof (launch_all_indices chunk s) as E.
      rewrite Hlaunch in E. simpl in E. rewrite E. reflexivity.
Qed.

End RunFacts.

(** ** Reasoning about resumptions *)

Section AsyncFacts.
Context {St : Type} (R : St -> St -> Prop) `{!PreOrder R}.

Lemma runs_ret {A} (Post : A -> Prop) (a : A) : Post a -> runs R Post (ret a).
Proof. intros H s. split; [reflexivity|constructor; exact H]. Qed.

Lemma runs_sync {A} (Post : A -> Prop) (f : St -> St * A) :
  (forall s, R s (f s).1 /\ Post (f s).2) -> runs R Post (sync f).
Proof.
  intros H s. unfold sync. specialize (H s). destruct (f s) as [s' a]. simpl in *.
  split; [tauto|constructor; tauto].
Qed.

Lemma blocks_bind {A B} (P : A -> Prop) (Q : B -> Prop) (f : A -> Async St B) (r : res St A) :
  all_blocks R P r ->
  (forall a, P a -> runs R Q (f a)) ->
  forall s0 s, R s0 s -> R s0 (bind_res r f s).1 /\ all_blocks R Q (bind_res r f s).2.
Proof.
  intros Hr Hf. induction Hr as [a Ha|k Hstep Hrest IH]; intros s0 s Hs; simpl.
  - destruct (Hf a Ha s) as [H1 H2]. split; [etrans; eassumption|assumption].
  - split; [assumption|]. constructor; intros s'.
    + specialize (Hstep s'). specialize (IH s' s' (k s').1 Hstep).
      destruct (k s') as [s'' r']. simpl in *. apply IH.
    + specialize (Hstep s'). specialize (IH s' s' (k s').1 Hstep).
      destruct (k s') as [s'' r']. simpl in *. apply IH.
Qed.

Lemma runs_bind {A B} (P : A -> Prop) (Q : B -> Prop) (m : Async St A) (f : A -> Async St B) :
  runs R P m -> (forall a, P a -> runs R Q (f a)) -> runs R Q (bind m f).
Proof.
  intros Hm Hf s. unfold bind. destruct (Hm s) as [H1 H2].
  destruct (m s) as [s' r]. simpl in *. eapply blocks_bind; eassumption.
Qed.

Lemma runs_pause : runs R (fun _ => True) (@pause St).
Proof.
  intros s. simpl. split; [reflexivity|].
  constructor; intros s'; simpl; [reflexivity|constructor; exact I].
Qed.

Lemma runs_settles {A} (Post : A -> Prop) (a : A) : Post a -> runs R Post (settles a).
Proof.
  intros H. unfold settles. eapply runs_bind; [apply runs_pause|].
  intros _ _. apply runs_ret, H.
Qed.

Lemma runs_await {A} (Post : A -> Prop) (m : Async St A) : runs R Post m -> runs R Post (await m).
Proof.
  intros H. unfold await. eapply runs_bind; [exact H|].
  intros a Ha. apply runs_settles, Ha.
Qed.

Lemma runs_try_catch {A} (P : outcome A -> Prop) (Q : A -> Prop)
    (m : Async St (outcome A)) (h : thrown -> Async St A) :
  runs R P m -> (forall a, P (Ok a) -> Q a) -> (forall e, P (Throw e) -> runs R Q (h e)) ->
  runs R Q (try_catch m h).
Proof.
  intros Hm Hok Hh. unfold try_catch. eapply runs_bind; [exact Hm|].
  intros [a|e] H; [apply runs_ret, Hok, H|apply Hh, H].
Qed.

Lemma runs_bind_ok {A B} (P : outcome A -> Prop) (Q : outcome B -> Prop)
    (m : Async St (outcome A)) (f : A -> Async St (outcome B)) :
  runs R P m -> (forall a, P (Ok a) -> runs R Q (f a)) -> (forall e, P (Throw e) -> Q (Throw e)) ->
  runs R Q (bind_ok m f).
Proof.
  intros Hm Hf He. unfold bind_ok. eapply runs_bind; [exact Hm|].
  intros [a|e] H; [apply Hf, H|apply runs_ret, He, H].
Qed.

Lemma runs_weaken {A} (P Q : A -> Prop) (m : Async St A) :
  (forall a, P a -> Q a) -> runs R P m -> runs R Q m.
Proof.
  intros HPQ Hm s. destruct (Hm s) as [H1 H2]. split; [assumption|].
  clear H1. induction H2; constructor; auto.
Qed.

End AsyncFacts.



Global Instance quiet_preorder : PreOrder quiet.
Proof.
  split.
  - intros s. repeat split. exists []. rewrite app_nil_r. auto.
  - intros s1 s2 s3 (Hr1 & Hc1 & sent1 & Ho1 & Hs1) (Hr2 & Hc2 & sent2 & Ho2 & Hs2).
    repeat split; [congruence|congruence|].
    exists (sent1 ++ sent2). rewrite Ho2, Ho1, app_assoc. split; [reflexivity|].
    apply Forall_app; auto.
Qed.

Lemma runs_timestamp (w : World) : runs quiet (fun _ => True) (timestamp w).
Proof.
  apply runs_sync. intros s. simpl. split; [|exact I].
  repeat split. exists []. rewrite app_nil_r. auto.
Qed.

Lemma runs_emit (jobId event : string) (data : payload) :
  event ∈ download_events -> runs quiet (fun _ => True) (emit jobId event data).
Proof.
  intros Hev. apply runs_sync. intros s. simpl. split; [|exact I].
  repeat split. exists (emits jobId event data). split.
  - cbn. rewrite <- app_assoc. reflexivity.
  - unfold emits. repeat (apply Forall_cons_2; [exact Hev|]). apply Forall_nil_2.
Qed.

Lemma runs_write_file (path : string) (f : file) :
  runs quiet (fun _ => True) (sync (fun s => (write_file path f s, tt))).
Proof.
  apply runs_sync. intros s. simpl. split; [|exact I].
  repeat split. exists []. rewrite app_nil_r. auto.
Qed.

Ltac quiet_step :=
  first
    [ apply runs_timestamp
    | apply runs_emit; unfold download_events; set_solver
    | apply runs_write_file
    | apply (runs_settles _ (fun _ => True)); exact I ].

Lemma runs_downloadFileWithProgress w fileId filePath originalUrl jobId regNo columnName :
  runs quiet (fun _ => True)
    (downloadFileWithProgress w fileId filePath originalUrl jobId regNo columnName).
Proof.
  unfold downloadFileWithProgress.
  eapply runs_bind; [apply _|quiet_step|intros t0 _].
  eapply runs_bind; [apply _|quiet_step|intros _ _].
  eapply runs_bind; [apply _|quiet_step|intros answer _].
  destruct answer as [response|error].
  - eapply runs_bind; [apply _|quiet_step|intros ending _].
    destruct ending as [message|].
    + eapply runs_bind; [apply _|quiet_step|intros t1 _].
      eapply runs_bind; [apply _|quiet_step|intros _ _].
      apply runs_ret; [apply _|exact I].
    + eapply runs_bind; [apply _|quiet_step|intros _ _].
      eapply runs_bind; [apply _|quiet_step|intros t1 _].
      eapply runs_bind; [apply _|quiet_step|intros _ _].
      apply runs_ret; [apply _|exact I].
  - eapply runs_bind; [apply _|quiet_step|intros t1 _].
    eapply runs_bind; [apply _|quiet_step|intros _ _].
    apply runs_ret; [apply _|exact I].
Qed.

Lemma or_default_truthy s d : d <> "" -> or_default s d <> "".
Proof.
  intros Hd. unfold or_default, truthy_string.
  destruct (String.eqb_spec s ""); simpl; assumption.
Qed.

Lemma opt_or_default_truthy o d : d <> "" -> opt_or_default o d <> "".
Proof. intros Hd. destruct o; [apply or_default_truthy|]; exact Hd. Qed.

Lemma truthy_opt_path o : truthy_opt o = true -> exists path, o = Some path /\ path <> "".
Proof.
  destruct o as [path|]; [|discriminate]. unfold truthy_opt, truthy_string.
  destruct (String.eqb_spec path ""); [discriminate|]. eauto.
Qed.

(** Every piece of [processDocument] is quiet, and what it returns is one
    of the results of [document_result]: it never throws. *)
Lemma runs_processDocument_result w regNo columnName folderName link jobId :
  runs quiet (document_result regNo columnName)
    (processDocument w regNo columnName folderName link jobId).
Proof.
  unfold processDocument.
  eapply runs_try_catch with
    (P := fun o => match o with
                   | Ok r => document_result regNo columnName r
                   | Throw _ => True
                   end);
    [apply _| |auto|].
  - destruct (extractFileId link) as [fileId|].
    + eapply runs_bind_ok with (P := fun _ => True); [apply _|quiet_step| |auto].
      intros _ _.
      eapply runs_bind; [apply _|apply runs_await; [apply _|apply runs_downloadFileWithProgress]|].
      intros fetched _.
      destruct (d_success fetched && truthy_opt (d_filePath fetched)) eqn:Hok.
      * apply andb_true_iff in Hok as [_ Hpath].
        apply truthy_opt_path in Hpath as (path & Hsome & Hne).
        eapply runs_bind_ok with (P := fun _ => True); [apply _|quiet_step| |auto].
        intros size _.
        eapply runs_bind; [apply _|quiet_step|intros t _].
        apply runs_ret; [apply _|]. repeat split. left. repeat split.
        exists path. rewrite Hsome. auto.
      * eapply runs_bind; [apply _|quiet_step|intros t _].
        apply runs_ret; [apply _|]. repeat split. right. repeat split.
        right. left. eexists. split; [reflexivity|].
        split; apply opt_or_default_truthy; discriminate.
    + eapply runs_bind; [apply _|quiet_step|intros t _].
      apply runs_ret; [apply _|]. repeat split. right. repeat split. left. auto.
  - intros error _.
    eapply runs_bind; [apply _|quiet_step|intros t _].
    apply runs_ret; [apply _|]. repeat split. right. repeat split.
    right. right. exists error. auto.
Qed.

Lemma runs_processDocument w regNo columnName folderName link jobId :
  runs quiet settled_result (processDocument w regNo columnName folderName link jobId).
Proof.
  eapply runs_weaken; [|apply runs_processDocument_result].
  intros r (_ & _ & _ & [(H & _)|(H & _)]); [left|right]; exact H.
Qed.

(** ** One queued closure *)

Section JobFacts.
Context (jobId : string) (T : nat) (pre : list DocumentFetcherResult) (box0 : list emission).

Lemma pending_of_blocks (F : DocumentFetcherResult -> Async st unit)
    (r : res st DocumentFetcherResult) :
  all_blocks quiet settled_result r ->
  (forall a, settled_result a ->
     forall s, final jobId T s (F a s).1 /\ (F a s).2 = Done tt) ->
  forall s,
    (bind_res (bind_res r settles s).2 F (bind_res r settles s).1).1 = s /\
    pending_task jobId T (bind_res (bind_res r settles s).2 F (bind_res r settles s).1).2.
Proof.
  intros Hr HF. induction Hr as [a Ha|k Hstep Hrest IH]; intros s; simpl.
  - split; [reflexivity|]. apply pending_final; intros s'; simpl; apply HF, Ha.
  - split; [reflexivity|]. apply pending_quiet; intros s'.
    + specialize (IH s' (k s').1). specialize (Hstep s').
      destruct (k s') as [s1 r1]. simpl in *.
      destruct (bind_res r1 settles s1) as [s2 r2]. simpl in *.
      destruct IH as [-> _]. exact Hstep.
    + specialize (IH s' (k s').1).
      destruct (k s') as [s1 r1]. simpl in *.
      destruct (bind_res r1 settles s1) as [s2 r2]. simpl in *.
      apply IH.
Qed.

Lemma download_task_ok w regNo colName folderName link :
  task_ok jobId T (download_task w regNo colName folderName link jobId T).
Proof.
  intros s. unfold download_task, await, bind.
  destruct (runs_processDocument w regNo colName folderName link jobId s) as [Hq Hb].
  destruct (processDocument w regNo colName folderName link jobId s) as [s1 r1].
  simpl in Hq, Hb.
  epose proof (pending_of_blocks _ r1 Hb _ s1) as [H1 H2].
  destruct (bind_res r1 settles s1) as [s2 r2]. simpl in *.
  rewrite H1. split; [exact Hq|exact H2].
  Unshelve.
  intros a Ha s'. simpl. split; [|reflexivity].
  exists a, (now w (clock s')). split; [exact Ha|]. cbn.
  repeat split. rewrite <- app_assoc. reflexivity.
Qed.

Lemma task_emission_mono s s' e :
  completedTasks s <= completedTasks s' ->
  (exists more, results s' = results s ++ more) ->
  task_emission jobId T pre s e -> task_emission jobId T pre s' e.
Proof.
  intros Hc [more Hr] [H|(Hev & current & result & t & Hd & Hcur & Hres)]; [left; exact H|].
  right. split; [exact Hev|]. exists current, result, t. split; [exact Hd|]. split; [lia|].
  rewrite Hr. apply lookup_app_l_Some. exact Hres.
Qed.

Lemma job_inv_quiet s s' : quiet s s' -> job_inv jobId T pre box0 s -> job_inv jobId T pre box0 s'.
Proof.
  intros (Hr & Hc & sent & Ho & Hsent) [(done & Hd1 & Hd2 & Hd3) (mid & Hm1 & Hm2)]. split.
  - exists done. rewrite Hr, Hc. auto.
  - exists (mid ++ sent). rewrite Ho, Hm1, app_assoc. split; [reflexivity|].
    apply Forall_app. split.
    + eapply Forall_impl; [exact Hm2|]. intros e. apply task_emission_mono; [lia|].
      exists []. rewrite app_nil_r. exact Hr.
    + eapply Forall_impl; [exact Hsent|]. intros e He. left. exact He.
Qed.

Lemma job_inv_final s s' :
  final jobId T s s' -> job_inv jobId T pre box0 s -> job_inv jobId T pre box0 s'.
Proof.
  intros (result & t & Hst & Hr & Hc & Ho) [(done & Hd1 & Hd2 & Hd3) (mid & Hm1 & Hm2)]. split.
  - exists (done ++ [result]). rewrite Hr, Hd1, Hc, length_app, <- app_assoc. simpl.
    split; [reflexivity|]. split; [lia|].
    apply Forall_app. split; [exact Hd3|]. apply Forall_cons_2; [exact Hst|apply Forall_nil_2].
  - eexists. rewrite Ho, Hm1, <- app_assoc. split; [reflexivity|].
    apply Forall_app. split.
    + eapply Forall_impl; [exact Hm2|]. intros e. apply task_emission_mono; [lia|].
      exists [result]. exact Hr.
    + assert (task_emission jobId T pre s'
                {| em_target := ToAll; em_event := "document-fetcher:progress";
                   em_data := ItemProgress jobId (S (completedTasks s)) T
                                (percent (S (completedTasks s)) T) result t |}
              /\ task_emission jobId T pre s'
                {| em_target := ToRoom jobId; em_event := "document-fetcher:progress";
                   em_data := ItemProgress jobId (S (completedTasks s)) T
                                (percent (S (completedTasks s)) T) result t |}) as [H1 H2].
      { split; right; (split; [reflexivity|]);
          exists (S (completedTasks s)), result, t; (split; [reflexivity|]);
          (split; [lia|]); rewrite Hr, Hd1, <- app_assoc;
          rewrite lookup_app_r by lia;
          rewrite lookup_app_r by lia;
          replace (List.length pre + S (completedTasks s) - 1 - List.length pre - List.length done) with 0 by lia;
          reflexivity. }
      unfold emits. apply Forall_cons_2; [exact H2|]. apply Forall_cons_2; [exact H1|].
      apply Forall_nil_2.
Qed.
End JobFacts.

(** ** A pool of closures *)

Section PoolFacts.
Context (jobId : string) (T : nat) (pre : list DocumentFetcherResult) (box0 : list emission).

Lemma pending_is_wait r : pending_task jobId T r -> is_wait r = true.
Proof. destruct 1; reflexivity. Qed.

Lemma pend_app p1 p2 : pend (p1 ++ p2) = pend p1 + pend p2.
Proof. unfold pend. rewrite List.filter_app, length_app. reflexivity. Qed.

Lemma pend_all_pending pool :
  Forall (fun x => pending_task jobId T x.2) pool -> pend pool = List.length pool.
Proof.
  induction 1 as [|[i r] pool Hr Hpool IH]; [reflexivity|].
  unfold pend in *. simpl in *. rewrite (pending_is_wait r Hr). simpl. congruence.
Qed.

Lemma run_pool_inv pool s tr sf trf :
  run_pool pool s tr sf trf ->
  Forall (fun x => slot_ok jobId T x.2) pool ->
  job_inv jobId T pre box0 s ->
  job_inv jobId T pre box0 sf /\ completedTasks sf = completedTasks s + pend pool.
Proof.
  induction 1 as [s tr|p1 i k p2 s tr s' r' sf trf Hk Hrun IH|p1 i p2 s tr sf trf Hrun IH];
    intros Hpool Hinv.
  - split; [exact Hinv|]. unfold pend. simpl. lia.
  - apply Forall_app in Hpool as [Hp1 Hp2].
    apply Forall_cons in Hp2 as [Hslot Hp2]. simpl in Hslot.
    destruct Hslot as [Hpending|]; [|discriminate].
    rewrite !pend_app in *. unfold pend in IH |- *. simpl in IH |- *.
    inversion Hpending as [k' Hquiet Hrest|k' Hfinal Hdone]; subst k'.
    + specialize (Hquiet s). specialize (Hrest s). rewrite Hk in Hquiet, Hrest. simpl in *.
      destruct IH as [IH1 IH2].
      * apply Forall_app. split; [exact Hp1|]. apply Forall_cons_2; [left; exact Hrest|exact Hp2].
      * eapply job_inv_quiet; eassumption.
      * split; [exact IH1|]. rewrite IH2, (pending_is_wait _ Hrest).
        destruct Hquiet as (_ & -> & _). reflexivity.
    + specialize (Hfinal s). specialize (Hdone s). rewrite Hk in Hfinal, Hdone. simpl in *.
      subst r'. destruct IH as [IH1 IH2].
      * apply Forall_app. split; [exact Hp1|]. apply Forall_cons_2; [right; reflexivity|exact Hp2].
      * eapply job_inv_final; eassumption.
      * split; [exact IH1|]. rewrite IH2. simpl.
        destruct Hfinal as (? & ? & _ & _ & -> & _). lia.
  - apply Forall_app in Hpool as [Hp1 Hp2].
    apply Forall_cons in Hp2 as [_ Hp2].
    destruct IH as [IH1 IH2]; [apply Forall_app; auto|exact Hinv|].
    split; [exact IH1|]. rewrite IH2, !pend_app. unfold pend. simpl. reflexivity.
Qed.

Lemma launch_all_inv (chunk : list (nat * thunk st)) s s1 pool :
  launch_all chunk s = (s1, pool) ->
  Forall (fun x => task_ok jobId T x.2) chunk ->
  quiet s s1 /\ Forall (fun x => pending_task jobId T x.2) pool /\
  List.length pool = List.length chunk.
Proof.
  revert s s1 pool. induction chunk as [|[i task] chunk IH]; intros s s1 pool Hl Hchunk.
  - simpl in Hl. injection Hl as <- <-. split; [reflexivity|]. split; [constructor|reflexivity].
  - simpl in Hl. apply Forall_cons in Hchunk as [Htask Hchunk]. simpl in Htask.
    destruct (Htask s) as [Hq Hp].
    destruct (task s) as [s' r]. simpl in *.
    destruct (launch_all chunk s') as [s2 pool'] eqn:E.
    injection Hl as <- <-.
    destruct (IH _ _ _ E Hchunk) as (Hq' & Hpool & Hlen).
    split; [etrans; eassumption|]. split; [apply Forall_cons_2; assumption|simpl; congruence].
Qed.

Lemma run_chunks_inv (chunks : list (list (nat * thunk st))) s tr sf trf :
  run_chunks chunks s tr sf trf ->
  Forall (Forall (fun x => task_ok jobId T x.2)) chunks ->
  job_inv jobId T pre box0 s ->
  job_inv jobId T pre box0 sf /\
  completedTasks sf = completedTasks s + List.length (concat chunks).
Proof.
  induction 1 as [s tr|chunk rest s tr s1 pool s2 tr2 sf trf Hlaunch Hpool Hrest IH];
    intros Hchunks Hinv.
  - split; [exact Hinv|]. simpl. lia.
  - apply Forall_cons in Hchunks as [Hchunk Hchunks].
    destruct (launch_all_inv _ _ _ _ Hlaunch Hchunk) as (Hq & Hpending & Hlen).
    destruct (run_pool_inv _ _ _ _ _ Hpool) as [Hinv2 Hc2].
    + eapply Forall_impl; [exact Hpending|]. intros x Hx. left. exact Hx.
    + eapply job_inv_quiet; eassumption.
    + destruct (IH Hchunks Hinv2) as [Hinv3 Hc3].
      split; [exact Hinv3|]. rewrite Hc3, Hc2. simpl. rewrite length_app.
      rewrite (pend_all_pending _ Hpending), Hlen.
      destruct Hq as (_ & -> & _). lia.
Qed.
End PoolFacts.

Section BuildFacts.
Context {A : Type}.

Lemma build_chunks_more_fuel fuel fuel' (queue : list A) k i acc chunks :
  build_chunks fuel queue k i acc = Some chunks -> fuel <= fuel' ->
  build_chunks fuel' queue k i acc = Some chunks.
Proof.
  revert fuel' i acc. induction fuel as [|fuel IH]; intros fuel' i acc H Hle; [discriminate|].
  destruct fuel' as [|fuel']; [lia|]. simpl in *.
  destruct (i <? Z.of_nat (List.length queue))%Z; [|exact H].
  apply IH; [exact H|lia].
Qed.

Lemma build_chunks_concat fuel (queue : list A) k chunks :
  build_chunks fuel queue k 0 [] = Some chunks -> concat chunks = queue.
Proof.
  intros H. destruct (Z.ltb_spec 0 k) as [Hpos|Hneg].
  - apply build_chunks_more_fuel with (fuel' := fuel + S (List.length queue)) in H; [|lia].
    rewrite build_chunks_positive in H by lia. injection H as <-.
    apply concat_chunks_of. lia.
  - destruct queue as [|x queue].
    + destruct fuel; [discriminate|]. simpl in H. injection H as <-. reflexivity.
    + rewrite build_chunks_stuck in H; [discriminate|lia|lia|discriminate].
Qed.
End BuildFacts.

(** ** The two loops over the records agree *)

Section PrepareFacts.
Context (w : World) (config : DocumentFetcherConfig) (jobId : string) (T : nat).

Lemma prep_rel_refl acc : prep_rel jobId T 0 0 acc acc.
Proof.
  repeat split; auto. exists []. rewrite app_nil_r. auto.
Qed.

Lemma prep_rel_trans a b c d x y z :
  prep_rel jobId T a b x y -> prep_rel jobId T c d y z -> prep_rel jobId T (a + c) (b + d) x z.
Proof.
  intros (H1 & (sk1 & H2 & H3 & H4) & H5 & H6 & H7 & H8) (G1 & (sk2 & G2 & G3 & G4) & G5 & G6 & G7 & G8).
  repeat split; [lia| |congruence|congruence|congruence|auto].
  exists (sk1 ++ sk2). rewrite G2, H2, app_assoc, length_app. split; [reflexivity|]. split; [lia|].
  apply Forall_app. auto.
Qed.

Lemma prep_rel_skip s queue rid regNo column message :
  prep_rel jobId T 0 1 (s, queue) (push_skipped w rid regNo column message s, queue).
Proof.
  repeat split; simpl; auto. eexists. split; [reflexivity|]. split; [reflexivity|].
  apply Forall_cons_2; [reflexivity|apply Forall_nil_2].
Qed.

Lemma count_columns_shift row cols c :
  fold_left (count_column w row) cols c
  = (c.1 + (fold_left (count_column w row) cols (0, 0)).1,
     c.2 + (fold_left (count_column w row) cols (0, 0)).2).
Proof.
  revert c. induction cols as [|entry cols IH]; intros [a b]; simpl.
  - f_equal; lia.
  - rewrite IH. rewrite (IH (count_column w row (0, 0) entry)).
    unfold count_column. destruct (countable_link w (get row entry.1)); simpl; f_equal; lia.
Qed.

Lemma count_row_shift c row :
  count_row w config c row
  = (c.1 + (count_row w config (0, 0) row).1, c.2 + (count_row w config (0, 0) row).2).
Proof.
  destruct c as [a b]. destruct row as [row|]; simpl; [|f_equal; lia].
  destruct (negb (to_boolean (regNo_of row))); simpl; [f_equal; lia|].
  apply (count_columns_shift row (mapping config) (a, b)).
Qed.

Lemma count_rows_shift data c :
  fold_left (count_row w config) data c
  = (c.1 + (count_tasks w config data).1, c.2 + (count_tasks w config data).2).
Proof.
  unfold count_tasks. revert c. induction data as [|row data IH]; intros [a b]; simpl.
  - f_equal; lia.
  - rewrite IH. rewrite (IH (count_row w config (0, 0) row)).
    rewrite (count_row_shift (a, b) row). simpl. f_equal; lia.
Qed.

Lemma count_tasks_cons row data :
  count_tasks w config (row :: data)
  = ((count_row w config (0, 0) row).1 + (count_tasks w config data).1,
     (count_row w config (0, 0) row).2 + (count_tasks w config data).2).
Proof. unfold count_tasks at 1. simpl. apply count_rows_shift. Qed.

Lemma prepare_column_rel row regNo acc entry :
  prep_rel jobId T (count_column w row (0, 0) entry).1 (count_column w row (0, 0) entry).2
    acc (prepare_column w jobId T row regNo acc entry).
Proof.
  destruct acc as [s queue]. destruct entry as [colName folderName].
  unfold prepare_column, count_column, countable_link. simpl.
  destruct (get row colName) as [| |url|b shown]; simpl;
    try (rewrite ?andb_false_r; apply prep_rel_skip).
  destruct (truthy_string url); simpl; [|apply prep_rel_skip].
  destruct (isValidGoogleDriveLink w url); simpl; [|apply prep_rel_skip].
  repeat split; simpl; auto.
  - rewrite length_app. reflexivity.
  - exists []. rewrite app_nil_r. auto.
  - intros H. apply Forall_app. split; [exact H|].
    apply Forall_cons_2; [apply download_task_ok|apply Forall_nil_2].
Qed.

Lemma prepare_columns_rel row regNo cols acc :
  prep_rel jobId T (fold_left (count_column w row) cols (0, 0)).1
    (fold_left (count_column w row) cols (0, 0)).2
    acc (fold_left (prepare_column w jobId T row regNo) cols acc).
Proof.
  revert acc. induction cols as [|entry cols IH]; intros acc; simpl.
  - apply prep_rel_refl.
  - rewrite count_columns_shift. simpl.
    eapply prep_rel_trans; [apply prepare_column_rel|apply IH].
Qed.

Lemma prepare_rel data i acc :
  prep_rel jobId T (count_tasks w config data).1 (count_tasks w config data).2
    acc (prepare w config jobId T i data acc).
Proof.
  revert i acc. induction data as [|row data IH]; intros i acc.
  - apply prep_rel_refl.
  - rewrite count_tasks_cons. destruct row as [row|]; cbn [prepare count_row].
    + destruct (negb (to_boolean (regNo_of row))); cbn [fst snd].
      * eapply prep_rel_trans; [|apply IH]. destruct acc. apply prep_rel_skip.
      * eapply prep_rel_trans; [|apply IH]. apply prepare_columns_rel.
    + cbn [fst snd]. eapply prep_rel_trans; [apply prep_rel_refl|apply IH].
Qed.

End PrepareFacts.

(** ** The service as a whole *)

Lemma indexed_snd {St} (queue : list (thunk St)) : (indexed queue).*2 = queue.
Proof.
  unfold indexed. apply list_eq. intros i.
  rewrite list_lookup_fmap, list_lookup_imap. destruct (queue !! i); reflexivity.
Qed.

Lemma indexed_fst {St} (queue : list (thunk St)) : (indexed queue).*1 = seq 0 (List.length queue).
Proof.
  unfold indexed. apply list_eq. intros i.
  rewrite list_lookup_fmap, list_lookup_imap.
  destruct (queue !! i) as [x|] eqn:E; simpl.
  - symmetry. apply lookup_seq. split; [reflexivity|]. eapply lookup_lt_Some, E.
  - symmetry. apply lookup_seq_ge. apply lookup_ge_None. exact E.
Qed.

Lemma length_indexed {St} (queue : list (thunk St)) :
  List.length (indexed queue) = List.length queue.
Proof. unfold indexed. apply length_imap. Qed.

Lemma Forall_indexed {St} (P : thunk St -> Prop) (queue : list (thunk St)) :
  Forall P queue -> Forall (fun x => P x.2) (indexed queue).
Proof.
  intros H. apply Forall_fmap. rewrite indexed_snd. exact H.
Qed.

Lemma queue_run_inv jobId T pre box0 (queue : list (thunk st)) k s sf tr :
  processDownloadQueue queue k s sf tr ->
  Forall (task_ok jobId T) queue ->
  job_inv jobId T pre box0 s ->
  job_inv jobId T pre box0 sf /\
  completedTasks sf = completedTasks s + List.length queue.
Proof.
  intros [fuel chunks sf' tr' Hbuild Hrun] Hq Hinv.
  pose proof (build_chunks_concat _ _ _ _ Hbuild) as Hcat.
  destruct (run_chunks_inv jobId T pre box0 _ _ _ _ _ Hrun) as [H1 H2].
  - apply Forall_concat. rewrite Hcat. apply Forall_indexed, Hq.
  - exact Hinv.
  - split; [exact H1|]. rewrite H2, Hcat, length_indexed. reflexivity.
Qed.

Lemma service_no_directory_inv w data config jobId s sf out error :
  processExcelFile w data config jobId s sf out ->
  ensureDir w (DOWNLOAD_DIR w) = Throw error ->
  sf = s /\ out = Rejected error.
Proof.
  intros [e He|s1 queue s2 tr sf' out' Hok] Herr; [|congruence].
  split; [reflexivity|congruence].
Qed.

(** What the service leaves behind once the download directory exists. *)
Lemma service_shape w data config jobId s sf out :
  processExcelFile w data config jobId s sf out ->
  ensureDir w (DOWNLOAD_DIR w) = Ok tt ->
  exists pre done mid t0 t1,
    results sf = pre ++ done /\
    List.length pre = (count_tasks w config data).2 /\
    Forall (fun r => r_status r = skipped) pre /\
    List.length done = (count_tasks w config data).1 /\
    Forall settled_result done /\
    completedTasks sf = (count_tasks w config data).1 /\
    Forall (task_emission jobId (count_tasks w config data).1 pre sf) mid /\
    ((out = Resolved (pre ++ done) /\
      finalize w (zip_path w jobId) = Ok tt /\
      disk sf !! zip_path w jobId = Some (ZipFile (zip_entries w (pre ++ done))) /\
      outbox (io sf) =
        outbox (io s) ++
        emits jobId "document-fetcher:start"
          (ServiceStart jobId (List.length data) (count_tasks w config data).1
             (count_tasks w config data).2 (count_tasks w config data).1 t0) ++
        mid ++
        emits jobId "document-fetcher:complete"
          (ServiceComplete jobId (count_tasks w config data).1
             (count_tasks w config data).2 (zip_path w jobId) (pre ++ done) t1))
     \/
     (exists error,
        out = Rejected error /\
        finalize w (zip_path w jobId) = Throw error /\
        outbox (io sf) =
          outbox (io s) ++
          emits jobId "document-fetcher:start"
            (ServiceStart jobId (List.length data) (count_tasks w config data).1
               (count_tasks w config data).2 (count_tasks w config data).1 t0) ++
          mid ++
          emits jobId "document-fetcher:error" (ErrorData jobId (error_of error) t1))).
Proof.
  intros [e He|s1 queue s2 tr sf' out' _ Hprep Hqueue Hfinish] Hdir; [congruence|].
  set (T := (count_tasks w config data).1) in *.
  set (K := (count_tasks w config data).2) in *.
  pose proof (prepare_rel w config jobId T data 0 (start w data config jobId s, [])) as Hrel.
  rewrite Hprep in Hrel.
  destruct Hrel as (Hlen & (sk & Hsk1 & Hsk2 & Hsk3) & Hc & Ho & _ & Hok).
  cbn [fst snd] in *.
  specialize (Hok (Forall_nil_2 _)).
  change (results (start w data config jobId s)) with (@nil DocumentFetcherResult) in Hsk1.
  change (completedTasks (start w data config jobId s)) with 0 in Hc.
  cbn [app List.length Nat.add] in Hsk1, Hlen.
  destruct (queue_run_inv jobId T sk (outbox (io s1)) queue _ _ _ _ Hqueue Hok)
    as [[(done & Hd1 & Hd2 & Hd3) (mid & Hm1 & Hm2)] Hc2].
  { split.
    - exists []. rewrite app_nil_r, Hc. auto.
    - exists []. rewrite app_nil_r. auto. }
  rewrite Hc, Hlen in Hc2. cbn [Nat.add] in Hc2. fold T in Hc2, Hlen. fold K in Hsk2.
  assert (outbox (io s1) = outbox (io s) ++
          emits jobId "document-fetcher:start"
            (ServiceStart jobId (List.length data) T K T (now w (clock s)))) as Hbox.
  { rewrite Ho. cbn. rewrite <- app_assoc. reflexivity. }
  assert (forall s', results s' = results s2 -> completedTasks s' = completedTasks s2 ->
                      Forall (task_emission jobId T sk s') mid) as Hmid.
  { intros s' Hr' Hc'. eapply Forall_impl; [exact Hm2|]. intros e.
    apply task_emission_mono; [lia|]. exists []. rewrite app_nil_r. exact Hr'. }
  unfold finish, createZipArchive in Hfinish.
  exists sk, done, mid, (now w (clock s)), (now w (clock s2)).
  destruct (finalize w (zip_path w jobId)) as [[]|error] eqn:Hzip;
    cbn in Hfinish; injection Hfinish as <- <-.
  - split; [exact Hd1|]. split; [exact Hsk2|]. split; [exact Hsk3|]. split; [lia|].
    split; [exact Hd3|]. split; [exact Hc2|]. split; [apply Hmid; reflexivity|].
    left. split; [rewrite Hd1; reflexivity|]. split; [reflexivity|]. split.
    + cbn. rewrite Hd1. apply lookup_insert_eq.
    + cbn. rewrite Hm1, Hbox, Hd1, Hc2, <- !app_assoc. reflexivity.
  - split; [exact Hd1|]. split; [exact Hsk2|]. split; [exact Hsk3|]. split; [lia|].
    split; [exact Hd3|]. split; [exact Hc2|]. split; [apply Hmid; reflexivity|].
    right. exists error. split; [reflexivity|]. split; [reflexivity|].
    cbn. rewrite Hm1, Hbox, <- !app_assoc. reflexivity.
Qed.

(** ** The reference schedule is a schedule *)

Section InOrderFacts.
Context {St : Type}.

Lemma drain_run (r : res St unit) :
  forall i pool s tr sf trf,
    run_pool pool (drain r s) (tr ++ [Settled i]) sf trf ->
    run_pool ((i, r) :: pool) s tr sf trf.
Proof.
  induction r as [[]|k IH] using res_rect'; intros i pool s tr sf trf H.
  - apply (pool_settle [] i pool). exact H.
  - simpl in H. destruct (k s) as [s' r'] eqn:E.
    apply (pool_resume [] i k pool s tr s' r'); [exact E|].
    specialize (IH s). rewrite E in IH. apply IH. exact H.
Qed.

Lemma run_in_order_sound (pool : list (nat * res St unit)) s tr :
  run_pool pool s tr (run_in_order pool s tr).1 (run_in_order pool s tr).2.
Proof.
  revert s tr. induction pool as [|[i r] pool IH]; intros s tr; simpl.
  - constructor.
  - apply drain_run, IH.
Qed.

Lemma run_chunks_in_order_sound (chunks : list (list (nat * thunk St))) s tr :
  run_chunks chunks s tr (run_chunks_in_order chunks s tr).1 (run_chunks_in_order chunks s tr).2.
Proof.
  revert s tr. induction chunks as [|chunk rest IH]; intros s tr; simpl.
  - constructor.
  - destruct (launch_all chunk s) as [s1 pool] eqn:E.
    pose proof (run_in_order_sound pool s1 (tr ++ map Launched chunk.*1)) as H.
    destruct (run_in_order pool s1 (tr ++ map Launched chunk.*1)) as [s2 tr2].
    econstructor; [exact E|exact H|apply IH].
Qed.

Lemma processDownloadQueue_in_order_sound fuel (queue : list (thunk St)) k s sf trf :
  processDownloadQueue_in_order fuel queue k s = Some (sf, trf) ->
  processDownloadQueue queue k s sf trf.
Proof.
  unfold processDownloadQueue_in_order.
  destruct (build_chunks fuel (indexed queue) k 0 []) as [chunks|] eqn:E; [|discriminate].
  intros H. injection H as H.
  pose proof (run_chunks_in_order_sound chunks s []) as Hrun. rewrite H in Hrun.
  econstructor; eassumption.
Qed.

Lemma stuck_queue_never_returns (queue : list (thunk St)) k s sf tr :
  (k <= 0)%Z -> queue <> [] -> ~ processDownloadQueue queue k s sf tr.
Proof.
  intros Hk Hq [fuel chunks sf' tr' Hbuild _].
  rewrite build_chunks_stuck in Hbuild; [discriminate|exact Hk|lia|].
  intros E. apply Hq. apply (f_equal (@List.length _)) in E.
  rewrite length_indexed in E. destruct queue; [reflexivity|discriminate].
Qed.

Lemma chunks_indices (queue : list (thunk St)) k :
  map (fmap fst) (chunks_of (indexed queue) k) = chunks_of (seq 0 (List.length queue)) k.
Proof.
  unfold chunks_of. rewrite length_indexed, length_seq, map_map.
  apply map_ext. intros j. unfold chunk_at.
  rewrite fmap_take, fmap_drop, indexed_fst. reflexivity.
Qed.

End InOrderFacts.

Lemma processExcelFile_in_order_sound fuel w data config jobId s sf out :
  processExcelFile_in_order fuel w data config jobId s = Some (sf, out) ->
  processExcelFile w data config jobId s sf out.
Proof.
  unfold processExcelFile_in_order.
  destruct (ensureDir w (DOWNLOAD_DIR w)) as [[]|error] eqn:Hdir.
  - destruct (prepare w config jobId (count_tasks w config data).1 0 data
                (start w data config jobId s, [])) as [s1 queue] eqn:Hprep.
    destruct (processDownloadQueue_in_order fuel queue (concurrency config) s1)
      as [[s2 tr]|] eqn:Hq; [|discriminate].
    intros H. injection H as H.
    eapply service_run; [exact Hdir|exact Hprep| |exact H].
    apply (processDownloadQueue_in_order_sound fuel). exact Hq.
  - intros H. injection H as <- <-. apply service_no_directory. exact Hdir.
Qed.

Lemma processDocumentsInBackground_in_order_sound fuel w data config jobId s sf :
  processDocumentsInBackground_in_order fuel w data config jobId s = Some sf ->
  processDocumentsInBackground w data config jobId s sf.
Proof.
  unfold processDocumentsInBackground_in_order.
  destruct (processExcelFile_in_order fuel w data config jobId
              (driver_start w data config jobId s)) as [[s1 [result|error]]|] eqn:E;
    [| |discriminate].
  - intros H. injection H as <-. apply background_complete.
    apply (processExcelFile_in_order_sound fuel). exact E.
  - intros H. injection H as <-. apply background_error.
    apply (processExcelFile_in_order_sound fuel). exact E.
Qed.

(** ** The emit helpers *)

(** C6.  Each of the three emit helpers hands the server exactly two
    emissions with one and the same event name and payload: the first goes
    to the room named by the job identifier, whose audience is the sockets
    that joined that room, the second to everyone, whose audience is every
    connected socket whatever rooms it is in.  For [emitError] the payload
    is the [errorData] object, built once. *)
Theorem emit_reaches_room_and_everyone
    (io : Server) (jobId event : string) (data : payload) (error : thrown) (now : string) :
  outbox (emitProgress io jobId event data) = outbox io ++ emits jobId event data /\
  outbox (emitCompletion io jobId event data) = outbox io ++ emits jobId event data /\
  outbox (emitError io jobId event error now)
    = outbox io ++ emits jobId event (ErrorData jobId (error_of error) now) /\
  (forall d, map em_target (emits jobId event d) = [ToRoom jobId; ToAll] /\
             map em_data (emits jobId event d) = [d; d] /\
             map em_event (emits jobId event d) = [event; event]) /\
  (forall sid, sid ∈ audience io (ToRoom jobId) <->
               exists joined, rooms io !! sid = Some joined /\ jobId ∈ joined) /\
  (forall sid, sid ∈ audience io ToAll <-> is_Some (rooms io !! sid)).
Proof.
  repeat split; try (unfold emitProgress, emitCompletion, emitError, send; cbn;
                     rewrite <- app_assoc; reflexivity).
  - apply audience_room.
  - apply audience_room.
  - apply audience_all.
  - apply audience_all.
Qed.

(** ** The password generator *)

Section PasswordFacts.
Import Password.

Lemma fill_empty_charset (array : list Byte.byte) : fill "" array = "".
Proof. induction array as [|b array IH]; [reflexivity|exact IH]. Qed.

Lemma pick_nonempty (charset : string) (b : Byte.byte) :
  charset <> "" -> exists c, pick charset b = Some c /\ mem_char c charset = true.
Proof.
  intros Hne. unfold pick.
  assert (String.length charset <> 0) as Hlen by (destruct charset; simpl; congruence).
  destruct (Nat.eqb_spec (String.length charset) 0) as [|_]; [contradiction|].
  destruct (get_lt (N.to_nat (Byte.to_N b) mod String.length charset) charset) as [c Hc].
  - apply Nat.mod_upper_bound. exact Hlen.
  - exists c. split; [exact Hc|]. eapply get_mem, Hc.
Qed.

Lemma fill_nonempty_charset (charset : string) (array : list Byte.byte) :
  charset <> "" ->
  String.length (fill charset array) = List.length array /\
  forall c, mem_char c (fill charset array) = true -> mem_char c charset = true.
Proof.
  intros Hne. induction array as [|b array [IH1 IH2]]; simpl.
  - split; [reflexivity|discriminate].
  - destruct (pick_nonempty charset b Hne) as (x & -> & Hx). simpl. split; [congruence|].
    intros c Hc. apply orb_true_iff in Hc as [Hc|Hc]; [|apply IH2, Hc].
    apply Ascii.eqb_eq in Hc. subst c. exact Hx.
Qed.

End PasswordFacts.

(** C9, as amended.  For a length the typed array and the random fill
    accept (0 to 65536): when the selected classes and custom characters are
    not empty
    but the two filters remove every character, [createPassword] returns
    the empty string; it does not throw and does not produce a password of
    the requested length.  When the filtered set is not empty, it returns a
    password of exactly [config.length] characters, each of the filtered
    set. *)
Theorem createPassword_filtered_charset
    (random : nat -> Byte.byte) (config : Password.PasswordConfig) :
  (0 <= Password.length config <= 65536)%Z ->
  (Password.selected config <> "" -> Password.filtered config = "" ->
   Password.createPassword random config = Ok "") /\
  (Password.filtered config <> "" ->
   exists password,
     Password.createPassword random config = Ok password /\
     String.length password = Z.to_nat (Password.length config) /\
     forall c, mem_char c password = true -> mem_char c (Password.filtered config) = true).
Proof.
  intros Hlen. unfold Password.createPassword.
  destruct (Z.ltb_spec (Password.length config) 0) as [|_]; [lia|].
  destruct (Z.ltb_spec 65536 (Password.length config)) as [|_]; [lia|].
  split.
  - intros Hsel Hfil.
    destruct (String.eqb_spec (Password.selected config) "") as [|_]; [contradiction|].
    rewrite Hfil, fill_empty_charset. reflexivity.
  - intros Hfil.
    destruct (String.eqb_spec (Password.selected config) "") as [Hsel|_].
    + exfalso. apply Hfil. unfold Password.filtered. rewrite Hsel.
      destruct (Password.excludeSimilar config), (Password.excludeAmbiguous config); reflexivity.
    + eexists. split; [reflexivity|].
      destruct (fill_nonempty_charset (Password.filtered config)
                  (map random (seq 0 (Z.to_nat (Password.length config)))) Hfil) as [H1 H2].
      split; [|exact H2]. rewrite H1, length_map, length_seq. reflexivity.
Qed.

Lemma createPassword_filtered_charset_witness :
  Password.createPassword (fun _ => Byte.x2a)
    {| Password.length := 8; Password.includeUppercase := false;
       Password.includeLowercase := false; Password.includeNumbers := false;
       Password.includeSymbols := false; Password.excludeSimilar := true;
       Password.excludeAmbiguous := false; Password.customChars := Some "0";
       Password.count := 1 |} = Ok "".
Proof.
  apply (createPassword_filtered_charset (fun _ => Byte.x2a)); [simpl; lia|discriminate|reflexivity].
Defined.

(** C9 as stated fails outside these lengths: with the character set
    filtered away, a negative length makes the typed array constructor throw,
    and a length above 65536 makes the random fill throw. *)
Lemma unfillable_lengths_throw :
  Password.selected
    {| Password.length := -1; Password.includeUppercase := false;
       Password.includeLowercase := false; Password.includeNumbers := false;
       Password.includeSymbols := false; Password.excludeSimilar := true;
       Password.excludeAmbiguous := false; Password.customChars := Some "0";
       Password.count := 1 |} = "0" /\
  Password.createPassword (fun _ => Byte.x2a)
    {| Password.length := -1; Password.includeUppercase := false;
       Password.includeLowercase := false; Password.includeNumbers := false;
       Password.includeSymbols := false; Password.excludeSimilar := true;
       Password.excludeAmbiguous := false; Password.customChars := Some "0";
       Password.count := 1 |} = Throw (ErrorObj "Invalid typed array length") /\
  Password.createPassword (fun _ => Byte.x2a)
    {| Password.length := 65537; Password.includeUppercase := false;
       Password.includeLowercase := false; Password.includeNumbers := false;
       Password.includeSymbols := false; Password.excludeSimilar := true;
       Password.excludeAmbiguous := false; Password.customChars := Some "0";
       Password.count := 1 |} = Throw (ErrorObj "The requested length exceeds 65,536 bytes").
Proof. split; [reflexivity|]. split; reflexivity. Qed.

(** ** The chunks of a queue and the order of the calls *)

Lemma build_chunks_same {A} fuel (queue : list A) (k : Z) chunks :
  (0 < k)%Z -> build_chunks fuel queue k 0 [] = Some chunks ->
  chunks = chunks_of queue (Z.to_nat k).
Proof.
  intros Hk H.
  apply build_chunks_more_fuel with (fuel' := fuel + S (List.length queue)) in H; [|lia].
  rewrite build_chunks_positive in H by lia. congruence.
Qed.

Lemma chunk_size {A} (queue : list A) k j chunk :
  0 < k -> chunks_of queue k !! j = Some chunk ->
  chunk = take k (drop (j * k) queue) /\
  0 < List.length chunk <= k /\
  (S j < ceil_div (List.length queue) k -> List.length chunk = k).
Proof.
  intros Hk H. apply lookup_chunks_of in H as [Hj ->].
  split; [reflexivity|]. rewrite length_chunk_at.
  apply lt_ceil_div in Hj; [|exact Hk]. split; [lia|].
  intros Hnext. apply lt_ceil_div in Hnext; [|exact Hk]. lia.
Qed.

(** The scenario of the specification: a thousand thunks, twenty at a
    time. *)
Lemma thousand_by_twenty {St} (queue : list (thunk St)) :
  List.length queue = 1000 ->
  List.length (chunks_of (indexed queue) 20) = 50 /\
  Forall (fun chunk => List.length chunk = 20) (chunks_of (indexed queue) 20).
Proof.
  intros Hlen.
  assert (ceil_div (List.length (indexed queue)) 20 = 50) as Hceil
    by (rewrite length_indexed, Hlen; reflexivity).
  split; [rewrite length_chunks_of; exact Hceil|].
  apply Forall_lookup. intros j chunk Hj.
  pose proof (lookup_chunks_of _ _ _ _ Hj) as [Hlt ->].
  rewrite length_chunk_at, length_indexed, Hlen. rewrite Hceil in Hlt. lia.
Qed.

(** C2, as amended.  For a positive [maxConcurrent = k] and a queue of [N]
    thunks the first loop ends, with exactly [ceil(N/k)] chunks; chunk [j]
    holds the [k] consecutive entries from position [j*k] on, so every
    chunk has [k] entries except possibly a shorter, non-empty last one, and
    the chunks put end to end are the queue.  When [k >= N >= 1] the whole
    queue is the one chunk.  The call returns on every schedule, and what an
    observer sees is chunk after chunk: the thunks of a chunk are called
    together in queue order, all of them settle, and only then is the first
    thunk of the next chunk called. *)
Theorem processDownloadQueue_chunks {St} (queue : list (thunk St)) (maxConcurrent : Z) :
  (0 < maxConcurrent)%Z ->
  let k := Z.to_nat maxConcurrent in
  let N := List.length queue in
  let chunks := chunks_of (indexed queue) k in
  (forall fuel, N < fuel ->
     build_chunks fuel (indexed queue) maxConcurrent 0 [] = Some chunks) /\
  List.length chunks = ceil_div N k /\
  concat chunks = indexed queue /\
  (forall j chunk, chunks !! j = Some chunk ->
     chunk = take k (drop (j * k) (indexed queue)) /\
     0 < List.length chunk <= k /\
     (S j < ceil_div N k -> List.length chunk = k)) /\
  (N <> 0 -> N <= k -> chunks = [indexed queue]) /\
  (forall s, exists sf tr, processDownloadQueue queue maxConcurrent s sf tr) /\
  (forall s sf tr, processDownloadQueue queue maxConcurrent s sf tr ->
     chunked_trace (chunks_of (seq 0 N) k) tr).
Proof.
  intros Hk k N chunks. subst k N chunks.
  assert (0 < Z.to_nat maxConcurrent) as Hpos by lia.
  split; [|split; [|split; [|split; [|split; [|split]]]]].
  - intros fuel Hfuel. apply build_chunks_positive; [exact Hk|].
    rewrite length_indexed. exact Hfuel.
  - rewrite length_chunks_of, length_indexed. reflexivity.
  - apply concat_chunks_of. exact Hpos.
  - intros j chunk Hj. rewrite <- (length_indexed queue). apply chunk_size; assumption.
  - intros Hne Hle. apply chunks_of_single.
    + intros E. apply Hne. rewrite <- (length_indexed queue), E. reflexivity.
    + rewrite length_indexed. exact Hle.
  - intros s.
    destruct (processDownloadQueue_in_order (S (List.length queue)) queue maxConcurrent s)
      as [[sf tr]|] eqn:E.
    + exists sf, tr. eapply processDownloadQueue_in_order_sound, E.
    + unfold processDownloadQueue_in_order in E.
      rewrite build_chunks_positive in E; [discriminate|exact Hk|].
      rewrite length_indexed. lia.
  - intros s sf tr [fuel chunks sf' tr' Hbuild Hrun].
    apply build_chunks_same in Hbuild; [|exact Hk]. subst chunks.
    apply run_chunks_trace in Hrun as (seen & -> & Hseen).
    rewrite chunks_indices in Hseen. exact Hseen.
Qed.

Lemma processDownloadQueue_chunks_witness :
  List.length (chunks_of (indexed [@pause unit; pause; pause]) (Z.to_nat 2)) = ceil_div 3 (Z.to_nat 2).
Proof.
  apply (processDownloadQueue_chunks [@pause unit; pause; pause] 2). lia.
Defined.

(** C2 as stated fails for the empty queue: with [k = 1 >= N = 0] the first
    loop builds no chunk at all, not the one chunk holding the whole
    queue. *)
Lemma empty_queue_forms_no_chunk :
  (Z.of_nat (List.length (@nil (thunk unit))) <= 1)%Z /\
  build_chunks 1 (indexed (@nil (thunk unit))) 1 0 [] = Some [] /\
  List.length (@nil (list (nat * thunk unit))) <> 1.
Proof. split; [simpl; lia|]. split; [reflexivity|discriminate]. Qed.

(** Every thunk is called once and settles once. *)
Lemma chunked_trace_perm chunks tr :
  chunked_trace chunks tr ->
  tr ≡ₚ map Launched (concat chunks) ++ map Settled (concat chunks).
Proof.
  induction 1 as [|chunk rest order tr Hperm Hrest IH]; [reflexivity|].
  simpl. rewrite !map_app, IH, Hperm.
  rewrite <- !app_assoc. apply Permutation_app_head.
  rewrite !app_assoc. apply Permutation_app_tail. apply Permutation_app_comm.
Qed.

(** No thunk of a later chunk is called before every thunk of an earlier
    chunk has settled. *)
Lemma settled_before_next_chunk chunks tr :
  chunked_trace chunks tr ->
  forall a b ca cb i j,
    a < b -> chunks !! a = Some ca -> chunks !! b = Some cb -> i ∈ ca -> j ∈ cb ->
    exists t1 t2 t3, tr = t1 ++ Settled i :: t2 ++ Launched j :: t3.
Proof.
  induction 1 as [|chunk rest order tr Hperm Hrest IH]; intros a b ca cb i j Hab Ha Hb Hi Hj.
  - rewrite lookup_nil in Ha. discriminate.
  - destruct b as [|b]; [lia|]. simpl in Hb. destruct a as [|a].
    + simpl in Ha. injection Ha as <-.
      assert (i ∈ order) as Hio by (rewrite Hperm; exact Hi).
      apply list_elem_of_split in Hio as (o1 & o2 & ->).
      assert (Launched j ∈ tr) as Hjtr.
      { apply chunked_trace_perm in Hrest. rewrite Hrest.
        apply elem_of_app. left. apply (list_elem_of_fmap_2 Launched).
        apply list_elem_of_lookup_2 in Hb as Hcb.
        apply list_elem_of_In, in_concat. exists cb.
        split; apply list_elem_of_In; assumption. }
      apply list_elem_of_split in Hjtr as (u1 & u2 & ->).
      exists (map Launched chunk ++ map Settled o1), (map Settled o2 ++ u1), u2.
      rewrite map_app. simpl. rewrite <- ?app_assoc. simpl. rewrite <- ?app_assoc. reflexivity.
    + simpl in Ha.
      destruct (IH a b ca cb i j) as (t1 & t2 & t3 & ->); try assumption; [lia|].
      exists (map Launched chunk ++ map Settled order ++ t1), t2, t3.
      rewrite <- !app_assoc. reflexivity.
Qed.

(** ** Results and progress events *)


Lemma count_status_app st (a b : list DocumentFetcherResult) :
  count_status st (a ++ b) = count_status st a + count_status st b.
Proof. induction a as [|r a IH]; simpl; [reflexivity|]. rewrite IH. lia. Qed.

Lemma count_status_skipped (rs : list DocumentFetcherResult) :
  Forall (fun r => r_status r = skipped) rs ->
  count_status skipped rs = List.length rs /\
  count_status success rs = 0 /\ count_status failed rs = 0.
Proof.
  induction 1 as [|r rs Hr _ (IH1 & IH2 & IH3)]; simpl; [auto|].
  rewrite Hr, IH1, IH2, IH3. simpl. auto.
Qed.

Lemma count_status_settled (rs : list DocumentFetcherResult) :
  Forall settled_result rs ->
  count_status success rs + count_status failed rs = List.length rs /\
  count_status skipped rs = 0.
Proof.
  induction 1 as [|r rs Hr _ (IH1 & IH2)]; simpl; [auto|].
  rewrite IH2. destruct Hr as [-> | ->]; simpl; split; lia.
Qed.

(** C3.  When the service returns, every result has one of the three
    terminal statuses; the success and failed results are as many as the
    [totalTasks] of the start event, which is the [totalProcessed] of the
    complete event, and the skipped results as many as the [skippedTasks]
    of the start event, which is the [totalSkipped] of the complete event:
    the three counts add up to the number of items these two events
    report, and to the length of the [results] the complete event
    carries. *)
Theorem results_add_up w data config jobId s sf rs :
  processExcelFile w data config jobId s sf (Resolved rs) ->
  Forall (fun r => r_status r = success \/ r_status r = failed \/ r_status r = skipped) rs /\
  count_status success rs + count_status failed rs = (count_tasks w config data).1 /\
  count_status skipped rs = (count_tasks w config data).2 /\
  count_status success rs + count_status failed rs + count_status skipped rs
    = (count_tasks w config data).1 + (count_tasks w config data).2 /\
  List.length rs = (count_tasks w config data).1 + (count_tasks w config data).2 /\
  exists t0 t1 mid,
    outbox (io sf) =
      outbox (io s) ++
      emits jobId "document-fetcher:start"
        (ServiceStart jobId (List.length data) (count_tasks w config data).1
           (count_tasks w config data).2 (count_tasks w config data).1 t0) ++
      mid ++
      emits jobId "document-fetcher:complete"
        (ServiceComplete jobId (count_tasks w config data).1
           (count_tasks w config data).2 (zip_path w jobId) rs t1).
Proof.
  intros Hrun.
  destruct (ensureDir w (DOWNLOAD_DIR w)) as [[]|error] eqn:Hdir.
  2:{ destruct (service_no_directory_inv _ _ _ _ _ _ _ _ Hrun Hdir) as [_ ?]. discriminate. }
  destruct (service_shape _ _ _ _ _ _ _ Hrun Hdir)
    as (pre & done & mid & t0 & t1 & Hres & Hpre & Hskip & Hdone & Hset & _ & _ & Hout).
  destruct Hout as [(Hrs & _ & _ & Hbox)|(error & ? & _)]; [|discriminate].
  injection Hrs as ->.
  destruct (count_status_skipped pre Hskip) as (S1 & S2 & S3).
  destruct (count_status_settled done Hset) as (D1 & D2).
  rewrite !count_status_app, length_app.
  split; [|split; [lia|split; [lia|split; [lia|split; [lia|]]]]].
  - apply Forall_app. split.
    + eapply Forall_impl; [exact Hskip|]. auto.
    + eapply Forall_impl; [exact Hset|]. intros r [?|?]; auto.
  - exists t0, t1, mid. exact Hbox.
Qed.

Lemma results_add_up_witness :
  exists sf rs,
    processExcelFile plain_world [Some sample_row; None; Some ∅] (sample_config 2 sample_columns)
      "job" empty_state sf (Resolved rs) /\
    count_status success rs + count_status failed rs + count_status skipped rs = 2 + 1.
Proof.
  eexists _, _. split.
  - apply (processExcelFile_in_order_sound 5). vm_compute. reflexivity.
  - refine (proj1 (proj2 (proj2 (proj2
      (results_add_up plain_world [Some sample_row; None; Some ∅]
         (sample_config 2 sample_columns) "job" empty_state _ _ _))))).
    apply (processExcelFile_in_order_sound 5). vm_compute. reflexivity.
Defined.

Lemma progress_is_no_download_event :
  "document-fetcher:progress" ∉ download_events.
Proof.
  unfold download_events. intros H.
  repeat (apply elem_of_cons in H as [H|H]; [discriminate|]).
  apply elem_of_nil in H. exact H.
Qed.



(** ** The events of a batch *)





(** ** Failing platforms and empty batches *)

(** When the archive cannot be written the service and the driver both
    report it. *)
Lemma archive_failure_is_reported_twice :
  exists sf t0 t1 t2 t3 mid,
    processDocumentsInBackground no_archive_world [Some sample_row]
      (sample_config 2 sample_columns) "job" empty_state sf /\
    outbox (io sf) =
      emits "job" "document-fetcher:start"
        (DriverStart "job" 1 (sample_config 2 sample_columns) t0) ++
      emits "job" "document-fetcher:start" (ServiceStart "job" 1 2 0 2 t1) ++
      mid ++
      emits "job" "document-fetcher:error"
        (ErrorData "job"
           (EMsg "EACCES: permission denied, open 'downloads/Photos/R1_A_B.pdf'") t2) ++
      emits "job" "document-fetcher:error"
        (ErrorData "job"
           (EMsg "EACCES: permission denied, open 'downloads/Photos/R1_A_B.pdf'") t3).
Proof.
  eexists _, _, _, _, _,
    (emits "job" "document-fetcher:download-start" _ ++
     emits "job" "document-fetcher:download-complete" _ ++
     emits "job" "document-fetcher:progress" _ ++
     emits "job" "document-fetcher:download-start" _ ++
     emits "job" "document-fetcher:download-complete" _ ++
     emits "job" "document-fetcher:progress" _).
  split.
  - apply (processDocumentsInBackground_in_order_sound 5). vm_compute. reflexivity.
  - vm_compute. reflexivity.
Qed.




(** ** The archive *)

Lemma slash_separates (a b c d : string) :
  mem_char "/" a = false -> mem_char "/" c = false ->
  a +:+ "/" +:+ b = c +:+ "/" +:+ d -> a = c /\ b = d.
Proof.
  assert (forall x u v, String x u +:+ v = String x (u +:+ v)) as Hcons by reflexivity.
  assert (forall v, "" +:+ v = v) as Hnil by reflexivity.
  revert c. induction a as [|x a IH]; intros [|y c] Ha Hc H;
    rewrite ?Hcons, ?Hnil in H; simpl in Ha, Hc.
  - injection H as ->. auto.
  - injection H as <- _. discriminate.
  - injection H as -> _. discriminate.
  - injection H as -> H.
    apply orb_false_iff in Ha as [_ Ha]. apply orb_false_iff in Hc as [_ Hc].
    destruct (IH c Ha Hc H) as [-> ->]. auto.
Qed.

Lemma zip_entry_of_Some w r entry :
  zip_entry_of w r = Some entry <->
  exists path, r_status r = success /\ r_filePath r = Some path /\ path <> "" /\
               entry = {| source := path;
                          name := basename w (dirname w path) +:+ "/" +:+ basename w path |}.
Proof.
  unfold zip_entry_of, truthy_string. split.
  - destruct (r_status r), (r_filePath r) as [path|]; try discriminate.
    destruct (String.eqb_spec path ""); simpl; [discriminate|].
    intros H. injection H as <-. eauto.
  - intros (path & -> & -> & Hne & ->).
    destruct (String.eqb_spec path ""); [contradiction|reflexivity].
Qed.

Lemma zip_entry_of_archived w r : is_Some (zip_entry_of w r) <-> archived r = true.
Proof.
  unfold zip_entry_of, archived, truthy_opt.
  destruct (r_status r), (r_filePath r) as [path|]; simpl;
    try (split; [intros [? ?]; discriminate|discriminate]).
  destruct (truthy_string path).
  - split; [reflexivity|intros _; eexists; reflexivity].
  - split; [intros [? ?]; discriminate|discriminate].
Qed.

Lemma length_zip_entries w rs :
  List.length (zip_entries w rs) = List.length (List.filter archived rs).
Proof.
  unfold zip_entries. induction rs as [|r rs IH]; simpl; [reflexivity|].
  pose proof (zip_entry_of_archived w r) as H.
  destruct (zip_entry_of w r) as [entry|], (archived r); simpl.
  - f_equal. exact IH.
  - exfalso. assert (false = true) by (apply H; eauto). discriminate.
  - exfalso. destruct H as [_ H]. destruct (H eq_refl). discriminate.
  - exact IH.
Qed.

(** C5, as amended.  The archive holds one entry for each result whose
    status is success and whose [filePath] is a non-empty string, and
    nothing for any other result: no entry and no placeholder for a failed
    or skipped one.  The entry of a result is named after the last two
    components of its [filePath], folder and file; two entries have the same
    name exactly when these two components agree, so results with the same
    [filePath] share a name. *)
Theorem archive_holds_successful_artifacts w jobId rs s :
  finalize w (zip_path w jobId) = Ok tt ->
  (createZipArchive w jobId rs s).2 = Ok (zip_path w jobId) /\
  disk (createZipArchive w jobId rs s).1 !! zip_path w jobId
    = Some (ZipFile (zip_entries w rs)) /\
  List.length (zip_entries w rs) = List.length (List.filter archived rs) /\
  (forall entry,
     entry ∈ zip_entries w rs <->
     exists r path,
       r ∈ rs /\ r_status r = success /\ r_filePath r = Some path /\ path <> "" /\
       entry = {| source := path;
                  name := basename w (dirname w path) +:+ "/" +:+ basename w path |}) /\
  (forall r, r_status r <> success -> zip_entry_of w r = None) /\
  ((forall path, mem_char "/" (basename w path) = false) ->
   forall e1 e2,
     e1 ∈ zip_entries w rs -> e2 ∈ zip_entries w rs ->
     (name e1 = name e2 <->
      basename w (dirname w (source e1)) = basename w (dirname w (source e2)) /\
      basename w (source e1) = basename w (source e2))).
Proof.
  intros Hzip. unfold createZipArchive. rewrite Hzip. cbn.
  split; [reflexivity|]. split; [apply lookup_insert_eq|].
  split; [apply length_zip_entries|].
  assert (forall entry,
     entry ∈ zip_entries w rs <->
     exists r path,
       r ∈ rs /\ r_status r = success /\ r_filePath r = Some path /\ path <> "" /\
       entry = {| source := path;
                  name := basename w (dirname w path) +:+ "/" +:+ basename w path |}) as Hin.
  { intros entry. unfold zip_entries. rewrite list_elem_of_omap. split.
    - intros (r & Hr & H). apply zip_entry_of_Some in H as (path & ? & ? & ? & ?).
      exists r, path. auto.
    - intros (r & path & Hr & ? & ? & ? & ?). exists r. split; [exact Hr|].
      apply zip_entry_of_Some. exists path. auto. }
  split; [exact Hin|]. split.
  - intros r Hr. unfold zip_entry_of. destruct (r_status r); try reflexivity. contradiction.
  - intros Hbase e1 e2 H1 H2.
    apply Hin in H1 as (r1 & p1 & _ & _ & _ & _ & ->).
    apply Hin in H2 as (r2 & p2 & _ & _ & _ & _ & ->). simpl. split.
    + apply slash_separates; apply Hbase.
    + intros [-> ->]. reflexivity.
Qed.

Lemma split_last_slash_base (path : string) :
  match split_last_slash path with
  | Some (_, base) => mem_char "/" base = false
  | None => mem_char "/" path = false
  end.
Proof.
  induction path as [|c rest IH]; [reflexivity|]. cbn [split_last_slash].
  destruct (split_last_slash rest) as [[dir base]|]; [exact IH|].
  unfold is_char. destruct (Ascii.eqb "/" c) eqn:E; [exact IH|].
  cbn [mem_char]. rewrite E. exact IH.
Qed.

Lemma posix_basename_no_slash (path : string) : mem_char "/" (posix_basename path) = false.
Proof.
  unfold posix_basename. pose proof (split_last_slash_base path) as H.
  destruct (split_last_slash path) as [[dir base]|]; exact H.
Qed.

Lemma archive_holds_successful_artifacts_witness :
  disk (createZipArchive plain_world "job" sample_results empty_state).1
    !! "downloads/documents_job.zip"
  = Some (ZipFile (zip_entries plain_world sample_results)) /\
  List.length (zip_entries plain_world sample_results) = 2 /\
  forall e1 e2,
    e1 ∈ zip_entries plain_world sample_results ->
    e2 ∈ zip_entries plain_world sample_results ->
    (name e1 = name e2 <->
     posix_basename (posix_dirname (source e1)) = posix_basename (posix_dirname (source e2)) /\
     posix_basename (source e1) = posix_basename (source e2)).
Proof.
  destruct (archive_holds_successful_artifacts plain_world "job" sample_results empty_state)
    as (_ & Hdisk & Hlen & _ & _ & Hnames); [reflexivity|].
  split; [exact Hdisk|]. split; [rewrite Hlen; reflexivity|].
  apply Hnames. apply posix_basename_no_slash.
Defined.

(** C5 as stated fails: two columns whose names differ in white space
    only, kept in the same folder, give two successful items with different
    identifiers and one and the same entry name. *)
Lemma whitespace_columns_share_an_entry_name :
  exists sf r1 r2 e1 e2,
    processExcelFile plain_world [Some sample_row] (sample_config 2 sample_columns) "job"
      empty_state sf (Resolved [r1; r2]) /\
    r_id r1 <> r_id r2 /\
    r_status r1 = success /\ r_status r2 = success /\
    disk sf !! "downloads/documents_job.zip" = Some (ZipFile [e1; e2]) /\
    name e1 = name e2.
Proof.
  eexists _, _, _, _, _. split.
  - apply (processExcelFile_in_order_sound 5). vm_compute. reflexivity.
  - split; [discriminate|]. split; [reflexivity|]. split; [reflexivity|].
    split; [vm_compute; reflexivity|reflexivity].
Qed.

(** ** Inputs on which the code goes wrong *)

(** With a negative [maxConcurrent] and at least one task the first loop of
    [processDownloadQueue] never ends, so the service never settles. *)
Lemma negative_concurrency_never_settles w data config jobId s sf out :
  (maxConcurrent config < 0)%Z ->
  (count_tasks w config data).1 <> 0 ->
  ensureDir w (DOWNLOAD_DIR w) = Ok tt ->
  ~ processExcelFile w data config jobId s sf out.
Proof.
  intros Hneg Htasks Hdir [e He|s1 queue s2 tr sf' out' _ Hprep Hqueue Hfinish]; [congruence|].
  pose proof (prepare_rel w config jobId (count_tasks w config data).1 data 0
                (start w data config jobId s, [])) as Hrel.
  rewrite Hprep in Hrel. destruct Hrel as (Hlen & _). simpl in Hlen.
  eapply stuck_queue_never_returns; [| |exact Hqueue].
  - unfold concurrency. destruct (Z.eqb_spec (maxConcurrent config) 0); lia.
  - intros ->. simpl in Hlen. lia.
Qed.

(** C4.  The code at the failing inputs.  A configured [maxConcurrent] of 0
    is replaced by the default 20: the batch is not rejected and the value
    is not 1.  A configured [maxConcurrent] of -1 reaches
    [processDownloadQueue] as it is: its first loop is still running after
    any number of turns, and the service never settles. *)
Theorem nonpositive_maxConcurrent_is_not_guarded :
  concurrency (sample_config 0 sample_columns) = 20%Z /\
  concurrency (sample_config (-1) sample_columns) = (-1)%Z /\
  (forall (queue : list (thunk st)) fuel,
     queue <> [] -> build_chunks fuel (indexed queue) (-1) 0 [] = None) /\
  (forall s sf out,
     ~ processExcelFile plain_world [Some sample_row] (sample_config (-1) sample_columns)
         "job" s sf out).
Proof.
  split; [reflexivity|]. split; [reflexivity|]. split.
  - intros queue fuel Hq. apply build_chunks_stuck; [lia|lia|].
    intros E. apply Hq. apply (f_equal (@List.length _)) in E.
    rewrite length_indexed in E. destruct queue; [reflexivity|discriminate].
  - intros s sf out. apply negative_concurrency_never_settles.
    + simpl. lia.
    + vm_compute. discriminate.
    + reflexivity.
Qed.

(** C1.  The code at the failing input.  The link passes
    [isValidGoogleDriveLink] and holds no file id; [processDocument] returns
    at once with status failed and a message, and without the [error]
    string its two other failure results carry. *)
Theorem link_without_id_fails_without_error w regNo columnName folderName jobId s :
  isValidGoogleDriveLink plain_world link_without_id = true /\
  extractFileId link_without_id = None /\
  processDocument w regNo columnName folderName link_without_id jobId s
  = ((tick w s).1,
     Done {| r_id := item_id regNo columnName; r_regNo := regNo; r_column := columnName;
             r_status := failed; r_message := "Invalid Google Drive link";
             r_filePath := None; r_fileName := None; r_fileSize := None;
             r_error := None; r_timestamp := now w (clock s) |}).
Proof. split; [reflexivity|]. split; reflexivity. Qed.

(* ===================================================================== *)
(** * Further properties *)
(* ===================================================================== *)

(** ** Links, extensions and file names *)

Lemma includes_tail c rest needle :
  includes rest needle = true -> includes (String c rest) needle = true.
Proof. intros H. simpl. rewrite H. apply orb_true_r. Qed.

Lemma includes_prefix hay needle :
  String.prefix needle hay = true -> includes hay needle = true.
Proof. intros H. destruct hay; simpl in *; rewrite H; reflexivity. Qed.

Lemma prefix_take_while p s : String.prefix (take_while p s) s = true.
Proof.
  induction s as [|c s IH]; simpl; [reflexivity|].
  destruct (p c); simpl; [|reflexivity].
  destruct (ascii_dec c c); [exact IH|contradiction].
Qed.

Lemma take_while_all p s c : mem_char c (take_while p s) = true -> p c = true.
Proof.
  induction s as [|x s IH]; simpl; [discriminate|].
  destruct (p x) eqn:E; simpl; [|discriminate].
  intros H. apply orb_true_iff in H as [H|H]; [|exact (IH H)].
  apply Ascii.eqb_eq in H. subst. exact E.
Qed.

Lemma match_prefix_includes lits s rest needle :
  match_prefix lits s = Some rest -> includes rest needle = true -> includes s needle = true.
Proof.
  revert s. induction lits as [|p lits IH]; intros s; simpl.
  - intros [= ->]. auto.
  - destruct s as [|c s]; [discriminate|]. destruct (p c); [|discriminate].
    intros H1 H2. apply includes_tail. eauto.
Qed.

Lemma match_here_capture lits s capture :
  match_here lits s = Some capture ->
  capture <> "" /\ (forall c, mem_char c capture = true -> is_id_char c = true) /\
  includes s capture = true.
Proof.
  unfold match_here. destruct (match_prefix lits s) as [rest|] eqn:E; [|discriminate].
  destruct (truthy_string (take_while is_id_char rest)) eqn:T; [|discriminate].
  intros [= <-]. split; [|split].
  - intros H. rewrite H in T. discriminate.
  - intros c. apply take_while_all.
  - eapply match_prefix_includes; [exact E|]. apply includes_prefix, prefix_take_while.
Qed.

Lemma regex_match_capture lits s capture :
  regex_match lits s = Some capture ->
  capture <> "" /\ (forall c, mem_char c capture = true -> is_id_char c = true) /\
  includes s capture = true.
Proof.
  induction s as [|c s IH]; simpl.
  - destruct (match_here lits "") eqn:E; [|discriminate]. intros [= <-].
    apply (match_here_capture _ _ _ E).
  - destruct (match_here lits (String c s)) eqn:E.
    + intros [= <-]. apply (match_here_capture _ _ _ E).
    + intros H. destruct (IH H) as (H1 & H2 & H3). split; [exact H1|]. split; [exact H2|].
      apply includes_tail, H3.
Qed.

(** X1.  Whatever [extractFileId] returns is a file id: it is not empty, it
    is made of letters, digits, hyphens and underscores only, and it occurs
    in the link it was taken from. *)
Theorem extractFileId_captures_an_id (driveUrl fileId : string) :
  extractFileId driveUrl = Some fileId ->
  fileId <> "" /\ (forall c, mem_char c fileId = true -> is_id_char c = true) /\
  includes driveUrl fileId = true.
Proof.
  unfold extractFileId, patterns. cbn [first_match].
  repeat match goal with
         | |- context [regex_match ?p driveUrl] =>
             let E := fresh "E" in
             destruct (regex_match p driveUrl) eqn:E;
             [intros [= <-]; exact (regex_match_capture _ _ _ E)|]
         end.
  discriminate.
Qed.

Lemma extractFileId_captures_an_id_witness :
  "abc-1" <> "" /\ (forall c, mem_char c "abc-1" = true -> is_id_char c = true) /\
  includes "https://drive.google.com/file/d/abc-1/view" "abc-1" = true.
Proof.
  apply (extractFileId_captures_an_id "https://drive.google.com/file/d/abc-1/view").
  reflexivity.
Defined.

Lemma regex_match_skip lits c s :
  match_here lits (String c s) = None ->
  regex_match lits (String c s) = regex_match lits s.
Proof. intros H. cbn [regex_match]. rewrite H. reflexivity. Qed.

Lemma regex_match_here lits s capture :
  match_here lits s = Some capture -> regex_match lits s = Some capture.
Proof. intros H. destruct s; cbn [regex_match]; rewrite H; reflexivity. Qed.

Lemma take_while_id (p : ascii -> bool) s :
  (forall c, mem_char c s = true -> p c = true) -> take_while p s = s.
Proof.
  induction s as [|x s IH]; intros H; simpl; [reflexivity|].
  rewrite (H x) by (simpl; rewrite Ascii.eqb_refl; reflexivity).
  f_equal. apply IH. intros c Hc. apply H. simpl. rewrite Hc. apply orb_true_r.
Qed.

Lemma take_while_stop (p : ascii -> bool) s c rest :
  (forall x, mem_char x s = true -> p x = true) -> p c = false ->
  take_while p (s +:+ String c rest) = s.
Proof.
  induction s as [|x s IH]; intros H Hc.
  - simpl. rewrite Hc. reflexivity.
  - change (String x s +:+ String c rest) with (String x (s +:+ String c rest)).
    cbn [take_while].
    rewrite (H x) by (simpl; rewrite Ascii.eqb_refl; reflexivity).
    f_equal. apply IH; [|exact Hc]. intros y Hy. apply H. simpl. rewrite Hy. apply orb_true_r.
Qed.

(** No pattern that starts with a character outside the class of ids
    matches inside an id. *)
Lemma regex_match_inside_id (p : ascii -> bool) lits s :
  (forall c, is_id_char c = true -> p c = false) ->
  (forall c, mem_char c s = true -> is_id_char c = true) ->
  regex_match (p :: lits) s = None.
Proof.
  intros Hp. induction s as [|x s IH]; intros H; [reflexivity|].
  rewrite regex_match_skip.
  - apply IH. intros c Hc. apply H. simpl. rewrite Hc. apply orb_true_r.
  - unfold match_here. cbn [match_prefix].
    rewrite Hp; [reflexivity|]. apply H. simpl. rewrite Ascii.eqb_refl. reflexivity.
Qed.

Lemma slash_is_no_id_char c : is_id_char c = true -> is_char "/" c = false.
Proof.
  intros H. unfold is_char. destruct (Ascii.eqb_spec "/" c) as [<-|]; [discriminate|reflexivity].
Qed.

(** X2.  For an id made of letters, digits, hyphens and underscores,
    [extractFileId] gives the id back from the three forms of link the
    service accepts: the [/file/d/] form, the [/open?id=] form and the
    direct-download form [downloadFileWithProgress] builds from the id. *)
Theorem extractFileId_of_the_link_forms (fileId : string) :
  fileId <> "" ->
  (forall c, mem_char c fileId = true -> is_id_char c = true) ->
  extractFileId ("https://drive.google.com/file/d/" +:+ fileId +:+ "/view") = Some fileId /\
  extractFileId ("https://drive.google.com/open?id=" +:+ fileId) = Some fileId /\
  extractFileId ("https://drive.google.com/uc?export=download&id=" +:+ fileId) = Some fileId.
Proof.
  intros Hne Hid.
  assert (truthy_string fileId = true) as Ht.
  { destruct fileId; [contradiction|reflexivity]. }
  unfold extractFileId, patterns. cbn [first_match]. split; [|split].
  - set (tail := fileId +:+ "/view"). lazy [String.append].
    repeat (rewrite regex_match_skip by reflexivity).
    rewrite (regex_match_here _ _ fileId); [reflexivity|].
    unfold match_here. cbn [match_prefix lit map list_ascii_of_string]. unfold is_char at 1 2 3.
    cbn [Ascii.eqb Bool.eqb]. subst tail.
    rewrite (take_while_stop is_id_char fileId "/" "view" Hid eq_refl), Ht. reflexivity.
  - lazy [String.append].
    repeat (rewrite regex_match_skip by reflexivity).
    change (lit "/d/") with (is_char "/" :: lit "d/").
    rewrite (regex_match_inside_id _ _ fileId slash_is_no_id_char Hid).
    rewrite (regex_match_here _ _ fileId); [reflexivity|].
    unfold match_here. cbn [match_prefix lit map list_ascii_of_string]. unfold is_char.
    cbn [Ascii.eqb Bool.eqb orb].
    rewrite (take_while_id is_id_char fileId Hid), Ht. reflexivity.
  - lazy [String.append].
    repeat (rewrite regex_match_skip by reflexivity).
    change (lit "/d/") with (is_char "/" :: lit "d/").
    rewrite (regex_match_inside_id _ _ fileId slash_is_no_id_char Hid).
    rewrite (regex_match_here _ _ fileId); [reflexivity|].
    unfold match_here. cbn [match_prefix lit map list_ascii_of_string]. unfold is_char.
    cbn [Ascii.eqb Bool.eqb orb].
    rewrite (take_while_id is_id_char fileId Hid), Ht. reflexivity.
Qed.

Lemma extractFileId_of_the_link_forms_witness :
  extractFileId "https://drive.google.com/file/d/1aB-c_9/view" = Some "1aB-c_9" /\
  extractFileId "https://drive.google.com/open?id=1aB-c_9" = Some "1aB-c_9" /\
  extractFileId "https://drive.google.com/uc?export=download&id=1aB-c_9" = Some "1aB-c_9".
Proof.
  apply (extractFileId_of_the_link_forms "1aB-c_9"); [discriminate|].
  intros c H. cbn [mem_char] in H.
  repeat (apply orb_true_iff in H as [H|H]; [apply Ascii.eqb_eq in H; subst c; reflexivity|]).
  discriminate.
Defined.

Lemma prefix_cons a x s :
  String.prefix (String a x) s = true <-> exists rest, s = String a rest /\ String.prefix x rest = true.
Proof.
  destruct s as [|b s]; simpl.
  - split; [discriminate|intros (rest & H & _); discriminate].
  - destruct (ascii_dec a b) as [<-|Hne].
    + split; [eauto|]. intros (rest & [= <-] & H). exact H.
    + split; [discriminate|]. intros (rest & [= ? ?] & _). congruence.
Qed.

Lemma match_prefix_lit x y s :
  String.prefix (x +:+ y) s = true ->
  exists rest, match_prefix (lit x) s = Some rest /\ String.prefix y rest = true.
Proof.
  revert s. induction x as [|a x IH]; intros s H.
  - exists s. split; [reflexivity|exact H].
  - change (String a x +:+ y) with (String a (x +:+ y)) in H.
    apply prefix_cons in H as (rest & -> & H).
    change (lit (String a x)) with (is_char a :: lit x). cbn [match_prefix].
    unfold is_char at 1. rewrite Ascii.eqb_refl. apply IH, H.
Qed.

Lemma match_prefix_lit_inv x y s rest :
  match_prefix (lit x) s = Some rest -> String.prefix y rest = true ->
  String.prefix (x +:+ y) s = true.
Proof.
  revert s. induction x as [|a x IH]; intros s H Hy.
  - injection H as ->. exact Hy.
  - change (lit (String a x)) with (is_char a :: lit x) in H. cbn [match_prefix] in H.
    destruct s as [|b s]; [discriminate|].
    unfold is_char at 1 in H. destruct (Ascii.eqb_spec a b) as [<-|]; [|discriminate].
    change (String a x +:+ y) with (String a (x +:+ y)).
    apply prefix_cons. exists s. split; [reflexivity|]. apply IH; assumption.
Qed.

Lemma capture_head rest :
  truthy_string (take_while is_id_char rest) = true <->
  exists c, is_id_char c = true /\ String.prefix (String c "") rest = true.
Proof.
  destruct rest as [|c rest]; simpl.
  - split; [discriminate|]. intros (c & _ & H). discriminate.
  - destruct (is_id_char c) eqn:E; simpl.
    + split; [|reflexivity]. intros _. exists c. split; [exact E|].
      destruct (ascii_dec c c); [destruct rest; reflexivity|contradiction].
    + split; [discriminate|]. intros (x & Hx & H).
      destruct (ascii_dec x c) as [->|]; [congruence|discriminate].
Qed.

Lemma match_here_lit x s :
  is_Some (match_here (lit x) s) <->
  exists c, is_id_char c = true /\ String.prefix (x +:+ String c "") s = true.
Proof.
  unfold match_here. split.
  - destruct (match_prefix (lit x) s) as [rest|] eqn:E; [|intros [? ?]; discriminate].
    destruct (truthy_string (take_while is_id_char rest)) eqn:T; [|intros [? ?]; discriminate].
    intros _. apply capture_head in T as (c & Hc & Hp). exists c. split; [exact Hc|].
    eapply match_prefix_lit_inv; eassumption.
  - intros (c & Hc & Hp). apply match_prefix_lit in Hp as (rest & -> & Hrest).
    rewrite (proj2 (capture_head rest)) by eauto. eauto.
Qed.

(** A pattern finds something exactly when it matches at some position. *)
Lemma regex_match_Some lits s :
  is_Some (regex_match lits s) <-> exists n, is_Some (match_here lits (drop_chars n s)).
Proof.
  induction s as [|a s IH]; cbn [regex_match].
  - destruct (match_here lits "") eqn:E.
    + split; [|eauto]. intros _. exists 0. simpl. rewrite E. eauto.
    + split; [intros [? ?]; discriminate|]. intros ([|n] & H); simpl in H; rewrite E in H; exact H.
  - destruct (match_here lits (String a s)) eqn:E.
    + split; [|eauto]. intros _. exists 0. simpl. rewrite E. eauto.
    + rewrite IH. split.
      * intros (n & H). exists (S n). exact H.
      * intros ([|n] & H); simpl in H; [rewrite E in H; destruct H; discriminate|eauto].
Qed.

Lemma includes_drop s needle :
  includes s needle = true <-> exists n, String.prefix needle (drop_chars n s) = true.
Proof.
  induction s as [|a s IH]; cbn [includes].
  - rewrite orb_false_r. split; [intros H; exists 0; exact H|].
    intros ([|n] & H); exact H.
  - rewrite orb_true_iff, IH. split.
    + intros [H|(n & H)]; [exists 0; exact H|exists (S n); exact H].
    + intros ([|n] & H); [left; exact H|right; eauto].
Qed.

Lemma regex_match_lit x s :
  is_Some (regex_match (lit x) s) <->
  exists c, is_id_char c = true /\ includes s (x +:+ String c "") = true.
Proof.
  rewrite regex_match_Some. split.
  - intros (n & H). apply match_here_lit in H as (c & Hc & Hp).
    exists c. split; [exact Hc|]. apply includes_drop. eauto.
  - intros (c & Hc & H). apply includes_drop in H as (n & H).
    exists n. apply match_here_lit. eauto.
Qed.

Lemma match_here_by_id s :
  is_Some (match_here by_id s) <->
  is_Some (match_here (lit "?id=") s) \/ is_Some (match_here (lit "&id=") s).
Proof.
  unfold match_here, by_id.
  change (lit "?id=") with (is_char "?" :: lit "id=").
  change (lit "&id=") with (is_char "&" :: lit "id=").
  destruct s as [|a s]; cbn [match_prefix].
  - split; [intros [? ?]; discriminate|intros [[? ?]|[? ?]]; discriminate].
  - set (M := match_prefix (lit "id=") s). unfold is_char.
    destruct (Ascii.eqb_spec "?" a) as [<-|].
    { cbn [orb]. change ("&" =? "?")%char with false. cbv iota.
      split; [auto|]. intros [H|[? H]]; [exact H|discriminate H]. }
    destruct (Ascii.eqb_spec "&" a) as [<-|]; cbn [orb].
    { split; [auto|]. intros [[? H]|H]; [discriminate H|exact H]. }
    split; [intros [? ?]; discriminate|intros [[? ?]|[? ?]]; discriminate].
Qed.

Lemma regex_match_by_id s :
  is_Some (regex_match by_id s) <->
  exists c, is_id_char c = true /\
            (includes s ("?id=" +:+ String c "") = true \/
             includes s ("&id=" +:+ String c "") = true).
Proof.
  rewrite regex_match_Some. split.
  - intros (n & H). apply match_here_by_id in H as [H|H];
      apply match_here_lit in H as (c & Hc & Hp); exists c; (split; [exact Hc|]);
      [left|right]; apply includes_drop; eauto.
  - intros (c & Hc & [H|H]); apply includes_drop in H as (n & H); exists n;
      apply match_here_by_id; [left|right]; apply match_here_lit; eauto.
Qed.

Lemma includes_shorter s a needle :
  includes s (String a needle) = true -> includes s needle = true.
Proof.
  rewrite !includes_drop. intros (n & H).
  apply prefix_cons in H as (rest & Hrest & H). exists (S n).
  clear -Hrest H. revert s Hrest. induction n as [|n IH]; intros s Hrest.
  - simpl in Hrest. subst s. exact H.
  - destruct s as [|b s]; [discriminate Hrest|]. simpl in Hrest.
    change (drop_chars (S (S n)) (String b s)) with (drop_chars (S n) s). apply IH, Hrest.
Qed.

Lemma is_Some_first_match ps s :
  is_Some (first_match ps s) <-> Exists (fun p => is_Some (regex_match p s)) ps.
Proof.
  induction ps as [|p ps IH]; cbn [first_match].
  - split; [intros [? ?]; discriminate|intros H; inversion H].
  - rewrite Exists_cons, <- IH. destruct (regex_match p s); [|split; [auto|]].
    + split; eauto.
    + intros [[? ?]|H]; [discriminate|exact H].
Qed.

(** X3.  [extractFileId] finds an id exactly in the links that hold one of
    the markers [/d/], [?id=] or [&id=] followed by a character an id may
    hold. *)
Theorem extractFileId_finds_the_marked_ids (driveUrl : string) :
  is_Some (extractFileId driveUrl) <->
  exists c, is_id_char c = true /\
            (includes driveUrl ("/d/" +:+ String c "") = true \/
             includes driveUrl ("?id=" +:+ String c "") = true \/
             includes driveUrl ("&id=" +:+ String c "") = true).
Proof.
  unfold extractFileId, patterns. fold by_id.
  rewrite is_Some_first_match, !Exists_cons, Exists_nil.
  rewrite !regex_match_lit, regex_match_by_id. split.
  - intros [(c & Hc & H)|[(c & Hc & H)|[(c & Hc & H)|[]]]]; exists c; (split; [exact Hc|]).
    + auto.
    + tauto.
    + left. do 5 apply includes_shorter in H. exact H.
  - intros (c & Hc & [H|[H|H]]); eauto 10.
Qed.

(** X4.  The third pattern of [extractFileId], [/file/d/], never decides
    the result: whenever it matches, the first pattern [/d/] has matched
    before it. *)
Theorem extractFileId_third_pattern_never_decides (driveUrl : string) :
  extractFileId driveUrl = first_match [lit "/d/"; by_id] driveUrl.
Proof.
  unfold extractFileId, patterns. fold by_id. cbn [first_match].
  destruct (regex_match (lit "/d/") driveUrl) eqn:E1; [reflexivity|].
  destruct (regex_match by_id driveUrl); [reflexivity|].
  destruct (regex_match (lit "/file/d/") driveUrl) eqn:E3; [|reflexivity].
  exfalso. assert (is_Some (regex_match (lit "/file/d/") driveUrl)) as H by eauto.
  apply regex_match_lit in H as (c & Hc & H).
  do 5 apply includes_shorter in H.
  assert (is_Some (regex_match (lit "/d/") driveUrl)) as [? H1].
  { apply regex_match_lit. eauto. }
  congruence.
Qed.

(** X5.  [getFileExtension] always returns [.pdf], [.jpg] or [.png], never
    an empty or another extension. *)
Theorem getFileExtension_is_one_of_three (contentType originalUrl : string) :
  getFileExtension contentType originalUrl = ".pdf" \/
  getFileExtension contentType originalUrl = ".jpg" \/
  getFileExtension contentType originalUrl = ".png".
Proof.
  unfold getFileExtension.
  repeat match goal with
         | |- context [if ?b then _ else _] => destruct b
         end; auto.
Qed.

(** X6.  A content type that names a PDF, a JPEG, a PNG or an image
    decides the extension; the link is looked at only when the content type
    says none of these. *)
Theorem getFileExtension_content_type_first (contentType url1 url2 : string) :
  includes contentType "pdf" || includes contentType "jpeg" || includes contentType "jpg" ||
  includes contentType "png" || includes contentType "image" = true ->
  getFileExtension contentType url1 = getFileExtension contentType url2.
Proof.
  unfold getFileExtension. intros H.
  destruct (includes contentType "pdf"); [reflexivity|].
  destruct (includes contentType "jpeg"); [reflexivity|].
  destruct (includes contentType "jpg"); [reflexivity|].
  destruct (includes contentType "png"); [reflexivity|].
  destruct (includes contentType "image"); [reflexivity|discriminate].
Qed.

Lemma getFileExtension_content_type_first_witness :
  getFileExtension "application/pdf" "https://drive.google.com/file/d/abc/photo.png"
  = getFileExtension "application/pdf" "https://drive.google.com/file/d/abc/scan.jpg".
Proof. apply getFileExtension_content_type_first. reflexivity. Defined.

Lemma replace_spaces_chars in_run s c :
  mem_char c (replace_spaces in_run s) = true -> is_space c = false.
Proof.
  revert in_run. induction s as [|x s IH]; intros in_run; simpl; [discriminate|].
  destruct (is_space x) eqn:Hx.
  - destruct in_run; [apply IH|]. simpl. intros H.
    apply orb_true_iff in H as [H|H]; [|exact (IH _ H)].
    apply Ascii.eqb_eq in H. subst c. reflexivity.
  - simpl. intros H. apply orb_true_iff in H as [H|H]; [|exact (IH _ H)].
    apply Ascii.eqb_eq in H. subst c. exact Hx.
Qed.

Lemma replace_spaces_fixed s :
  (forall c, mem_char c s = true -> is_space c = false) ->
  forall in_run, replace_spaces in_run s = s.
Proof.
  induction s as [|x s IH]; intros H in_run; simpl; [reflexivity|].
  rewrite (H x) by (simpl; rewrite Ascii.eqb_refl; reflexivity).
  f_equal. apply IH. intros c Hc. apply H. simpl. rewrite Hc. apply orb_true_r.
Qed.

Lemma replace_spaces_length in_run s :
  String.length (replace_spaces in_run s) <= String.length s.
Proof.
  revert in_run. induction s as [|x s IH]; intros in_run; simpl; [lia|].
  destruct (is_space x); [destruct in_run|]; simpl.
  - specialize (IH true). lia.
  - specialize (IH true). lia.
  - specialize (IH false). lia.
Qed.

(** X7.  The part of the file name [processDocument] makes of the column
    name holds no white space, is left alone by a second replacement and is
    no longer than the column name. *)
Theorem replace_spaces_leaves_no_white_space (columnName : string) :
  (forall c, mem_char c (replace_spaces false columnName) = true -> is_space c = false) /\
  replace_spaces false (replace_spaces false columnName) = replace_spaces false columnName /\
  String.length (replace_spaces false columnName) <= String.length columnName.
Proof.
  split; [intros c; apply replace_spaces_chars|]. split.
  - apply replace_spaces_fixed. intros c. apply replace_spaces_chars.
  - apply replace_spaces_length.
Qed.






(** ** Deliveries and thunks in flight *)

Lemma received_app io sid b1 b2 :
  received io sid (b1 ++ b2) = received io sid b1 ++ received io sid b2.
Proof. apply List.filter_app. Qed.

Lemma in_room_decide io room sid :
  bool_decide (sid ∈ audience io (ToRoom room)) =
  match rooms io !! sid with
  | Some joined => bool_decide (room ∈ joined)
  | None => false
  end.
Proof.
  destruct (rooms io !! sid) as [joined|] eqn:E.
  - apply bool_decide_ext. rewrite audience_room. split.
    + intros (j & Hj & Hin). congruence.
    + intros Hin. exists joined. auto.
  - apply bool_decide_eq_false. rewrite audience_room. intros (j & Hj & _). congruence.
Qed.

Lemma in_all_decide io sid :
  bool_decide (sid ∈ audience io ToAll) =
  match rooms io !! sid with
  | Some _ => true
  | None => false
  end.
Proof.
  destruct (rooms io !! sid) as [joined|] eqn:E.
  - apply bool_decide_eq_true. rewrite audience_all, E. eauto.
  - apply bool_decide_eq_false. rewrite audience_all, E. intros [? ?]. discriminate.
Qed.

(** X9.  One call of [emitProgress] adds the event for the job's room and
    the event for everyone, so a connected socket that is in the room
    receives the event twice, a connected socket that is not receives it
    once, and a socket that is not connected does not receive it. *)
Theorem helper_event_is_delivered_twice_to_the_room
    (io : Server) (jobId event : string) (data : payload) (sid : socket_id) :
  outbox (emitProgress io jobId event data) = outbox io ++ emits jobId event data /\
  received io sid (emits jobId event data) =
    match rooms io !! sid with
    | Some joined =>
        if bool_decide (jobId ∈ joined)
        then [ {| em_target := ToRoom jobId; em_event := event; em_data := data |};
               {| em_target := ToAll; em_event := event; em_data := data |} ]
        else [ {| em_target := ToAll; em_event := event; em_data := data |} ]
    | None => []
    end.
Proof.
  split.
  - cbn. rewrite <- app_assoc. reflexivity.
  - unfold received, emits. cbn [List.filter em_target].
    rewrite in_room_decide, in_all_decide.
    destruct (rooms io !! sid) as [joined|]; [|reflexivity].
    destruct (bool_decide (jobId ∈ joined)); reflexivity.
Qed.

(** X10.  A connected socket that has joined the job receives both copies
    of an event of the job; once it has left the job it still receives the
    copy sent to everyone. *)
Theorem leaving_the_room_keeps_the_broadcast
    (io : Server) (sid : socket_id) (jobId event : string) (data : payload) :
  is_Some (rooms io !! sid) ->
  received (join_job sid jobId io) sid (emits jobId event data) = emits jobId event data /\
  received (leave_job sid jobId io) sid (emits jobId event data) =
    [ {| em_target := ToAll; em_event := event; em_data := data |} ].
Proof.
  intros [joined H]. unfold received, emits. cbn [List.filter em_target].
  rewrite !in_room_decide, !in_all_decide. cbn [rooms join_job leave_job].
  rewrite !lookup_alter_eq, H. cbn [fmap option_fmap option_map].
  rewrite bool_decide_eq_true_2
    by (apply elem_of_union; left; apply elem_of_singleton; reflexivity).
  rewrite bool_decide_eq_false_2
    by (intros Hin; apply elem_of_difference in Hin as [_ Hout];
        apply Hout, elem_of_singleton; reflexivity).
  split; reflexivity.
Qed.

Lemma leaving_the_room_keeps_the_broadcast_witness :
  received (join_job "s1" "job" (connect "s1" {| rooms := ∅; outbox := [] |})) "s1"
    (emits "job" "document-fetcher:progress" (DriverComplete "job" [] "T0"))
  = emits "job" "document-fetcher:progress" (DriverComplete "job" [] "T0") /\
  received (leave_job "s1" "job" (connect "s1" {| rooms := ∅; outbox := [] |})) "s1"
    (emits "job" "document-fetcher:progress" (DriverComplete "job" [] "T0"))
  = [ {| em_target := ToAll; em_event := "document-fetcher:progress";
         em_data := DriverComplete "job" [] "T0" |} ].
Proof.
  apply (leaving_the_room_keeps_the_broadcast (connect "s1" {| rooms := ∅; outbox := [] |})).
  cbn [rooms connect]. rewrite lookup_insert_eq. eauto.
Defined.

Lemma in_flight_app t1 t2 : (in_flight (t1 ++ t2) = in_flight t1 + in_flight t2)%Z.
Proof. induction t1 as [|[i|i] t1 IH]; simpl; lia. Qed.

Lemma in_flight_launched l : in_flight (map Launched l) = Z.of_nat (List.length l).
Proof. induction l as [|i l IH]; simpl; lia. Qed.

Lemma in_flight_settled l : in_flight (map Settled l) = (- Z.of_nat (List.length l))%Z.
Proof. induction l as [|i l IH]; simpl; lia. Qed.

Lemma chunked_trace_in_flight (k : nat) chunks tr :
  chunked_trace chunks tr ->
  Forall (fun chunk => List.length chunk <= k) chunks ->
  in_flight tr = 0%Z /\
  forall n, (0 <= in_flight (take n tr) <= Z.of_nat k)%Z.
Proof.
  induction 1 as [|chunk rest order tr Hperm Hrest IH]; intros Hk.
  - split; [reflexivity|]. intros n. rewrite take_nil. simpl. lia.
  - apply Forall_cons in Hk as [Hc Hk]. destruct (IH Hk) as [IH1 IH2].
    assert (List.length order = List.length chunk) as Hlen by (rewrite Hperm; reflexivity).
    split.
    + rewrite !in_flight_app, in_flight_launched, in_flight_settled, IH1. lia.
    + intros n. rewrite take_app, in_flight_app, length_map.
      rewrite firstn_map, in_flight_launched, length_take.
      rewrite take_app, in_flight_app, length_map.
      rewrite firstn_map, in_flight_settled, length_take.
      specialize (IH2 (n - List.length chunk - List.length order)).
      destruct (Nat.le_gt_cases (List.length chunk + List.length order) n) as [Hn|Hn].
      * rewrite !Nat.min_r by lia. lia.
      * replace (n - List.length chunk - List.length order) with 0 by lia.
        rewrite take_0. cbn [in_flight].
        destruct (Nat.le_gt_cases (List.length chunk) n).
        -- rewrite (Nat.min_r _ (List.length chunk)) by lia. lia.
        -- replace (n - List.length chunk) with 0 by lia. rewrite Nat.min_0_l. lia.
Qed.

(** ** The scheduler and the service, further *)

Lemma length_chunks_bound {A} (queue : list A) (k : nat) :
  Forall (fun chunk => List.length chunk <= k) (chunks_of queue k).
Proof.
  unfold chunks_of. apply List.Forall_forall. intros chunk Hin.
  apply in_map_iff in Hin as (j & <- & _). unfold chunk_at. rewrite length_take. lia.
Qed.

(** X11.  For a positive [maxConcurrent], at every moment of every run of
    [processDownloadQueue] the thunks that have been called and have not
    settled are at most [maxConcurrent], and none is left at the end. *)
Theorem never_more_than_maxConcurrent_in_flight {St}
    (queue : list (thunk St)) (maxConcurrent : Z) (s sf : St) (tr : list sev) :
  (0 < maxConcurrent)%Z ->
  processDownloadQueue queue maxConcurrent s sf tr ->
  in_flight tr = 0%Z /\
  forall n, (0 <= in_flight (take n tr) <= maxConcurrent)%Z.
Proof.
  intros Hk [fuel chunks sf' tr' Hbuild Hrun].
  apply build_chunks_same in Hbuild; [|exact Hk]. subst chunks.
  apply run_chunks_trace in Hrun as (seen & -> & Hseen).
  rewrite chunks_indices in Hseen. cbn [app].
  destruct (chunked_trace_in_flight (Z.to_nat maxConcurrent) _ _ Hseen
              (length_chunks_bound _ _)) as [H1 H2].
  split; [exact H1|]. intros n. specialize (H2 n). lia.
Qed.

Lemma never_more_than_maxConcurrent_in_flight_witness :
  exists sf tr,
    processDownloadQueue [@pause unit; pause; pause] 2 tt sf tr /\
    in_flight tr = 0%Z /\
    forall n, (0 <= in_flight (take n tr) <= 2)%Z.
Proof.
  eexists _, _. split.
  - apply (processDownloadQueue_in_order_sound 4). vm_compute. reflexivity.
  - apply (never_more_than_maxConcurrent_in_flight [@pause unit; pause; pause] 2 tt tt);
      [lia|].
    apply (processDownloadQueue_in_order_sound 4). vm_compute. reflexivity.
Defined.




(** X13.  In the results of a batch the skipped items come first and the
    downloaded items follow them. *)
Theorem skipped_results_come_first w data config jobId s sf rs :
  processExcelFile w data config jobId s sf (Resolved rs) ->
  exists skippedItems settledItems,
    rs = skippedItems ++ settledItems /\
    List.length skippedItems = (count_tasks w config data).2 /\
    Forall (fun r => r_status r = skipped) skippedItems /\
    List.length settledItems = (count_tasks w config data).1 /\
    Forall (fun r => r_status r = success \/ r_status r = failed) settledItems.
Proof.
  intros Hrun.
  destruct (ensureDir w (DOWNLOAD_DIR w)) as [[]|error] eqn:Hdir.
  2:{ destruct (service_no_directory_inv _ _ _ _ _ _ _ _ Hrun Hdir) as [_ ?]. discriminate. }
  destruct (service_shape _ _ _ _ _ _ _ Hrun Hdir)
    as (pre & done & mid & t0 & t1 & Hres & Hpre & Hskip & Hdone & Hset & _ & _ & Hout).
  destruct Hout as [(Hrs & _)|(error & ? & _)]; [|discriminate].
  injection Hrs as ->. exists pre, done. auto.
Qed.

Lemma skipped_results_come_first_witness :
  exists sf rs,
    processExcelFile plain_world [Some sample_row; None; Some ∅] (sample_config 2 sample_columns)
      "job" empty_state sf (Resolved rs) /\
    exists skippedItems settledItems,
      rs = skippedItems ++ settledItems /\
      List.length skippedItems
        = (count_tasks plain_world (sample_config 2 sample_columns)
             [Some sample_row; None; Some ∅]).2 /\
      Forall (fun r => r_status r = skipped) skippedItems /\
      List.length settledItems
        = (count_tasks plain_world (sample_config 2 sample_columns)
             [Some sample_row; None; Some ∅]).1 /\
      Forall (fun r => r_status r = success \/ r_status r = failed) settledItems.
Proof.
  eexists _, _. split.
  - apply (processExcelFile_in_order_sound 5). vm_compute. reflexivity.
  - refine (skipped_results_come_first plain_world [Some sample_row; None; Some ∅]
              (sample_config 2 sample_columns) "job" empty_state _ _ _).
    apply (processExcelFile_in_order_sound 5). vm_compute. reflexivity.
Defined.

Section InvariantFacts.
Context (jobId : string) (T : nat) (I : st -> Prop).
Hypothesis I_quiet : forall s s', quiet s s' -> I s -> I s'.
Hypothesis I_final : forall s s', final jobId T s s' -> I s -> I s'.

Lemma run_pool_keeps pool s tr sf trf :
  run_pool pool s tr sf trf ->
  Forall (fun x => slot_ok jobId T x.2) pool -> I s -> I sf.
Proof.
  induction 1 as [s tr|p1 i k p2 s tr s' r' sf trf Hk Hrun IH|p1 i p2 s tr sf trf Hrun IH];
    intros Hpool Hinv.
  - exact Hinv.
  - apply Forall_app in Hpool as [Hp1 Hp2].
    apply Forall_cons in Hp2 as [Hslot Hp2]. simpl in Hslot.
    destruct Hslot as [Hpending|]; [|discriminate].
    inversion Hpending as [k' Hquiet Hrest|k' Hfinal Hdone]; subst k'.
    + specialize (Hquiet s). specialize (Hrest s). rewrite Hk in Hquiet, Hrest. simpl in *.
      apply IH.
      * apply Forall_app. split; [exact Hp1|]. apply Forall_cons_2; [left; exact Hrest|exact Hp2].
      * eapply I_quiet; eassumption.
    + specialize (Hfinal s). specialize (Hdone s). rewrite Hk in Hfinal, Hdone. simpl in *.
      subst r'. apply IH.
      * apply Forall_app. split; [exact Hp1|]. apply Forall_cons_2; [right; reflexivity|exact Hp2].
      * eapply I_final; eassumption.
  - apply Forall_app in Hpool as [Hp1 Hp2].
    apply Forall_cons in Hp2 as [_ Hp2].
    apply IH; [apply Forall_app; auto|exact Hinv].
Qed.

Lemma run_chunks_keeps (chunks : list (list (nat * thunk st))) s tr sf trf :
  run_chunks chunks s tr sf trf ->
  Forall (Forall (fun x => task_ok jobId T x.2)) chunks -> I s -> I sf.
Proof.
  induction 1 as [s tr|chunk rest s tr s1 pool s2 tr2 sf trf Hlaunch Hpool Hrest IH];
    intros Hchunks Hinv; [exact Hinv|].
  apply Forall_cons in Hchunks as [Hchunk Hchunks].
  destruct (launch_all_inv jobId T _ _ _ _ Hlaunch Hchunk) as (Hq & Hpending & Hlen).
  apply IH; [exact Hchunks|].
  eapply run_pool_keeps; [exact Hpool| |eapply I_quiet; eassumption].
  eapply Forall_impl; [exact Hpending|]. intros x Hx. left. exact Hx.
Qed.

Lemma queue_keeps (queue : list (thunk st)) k s sf tr :
  processDownloadQueue queue k s sf tr ->
  Forall (task_ok jobId T) queue -> I s -> I sf.
Proof.
  intros [fuel chunks sf' tr' Hbuild Hrun] Hq Hinv.
  pose proof (build_chunks_concat _ _ _ _ Hbuild) as Hcat.
  eapply run_chunks_keeps; [exact Hrun| |exact Hinv].
  apply Forall_concat. rewrite Hcat. apply Forall_indexed, Hq.
Qed.

End InvariantFacts.

Lemma progress_numbers_app b1 b2 :
  progress_numbers (b1 ++ b2) = progress_numbers b1 ++ progress_numbers b2.
Proof. apply omap_app. Qed.

Lemma progress_numbers_other box :
  Forall (fun e => em_event e <> "document-fetcher:progress") box -> progress_numbers box = [].
Proof.
  induction 1 as [|e box He Hbox IH]; [reflexivity|].
  unfold progress_numbers in *. cbn [omap list_omap]. rewrite IH.
  destruct (em_target e); [reflexivity|]. destruct (em_data e); try reflexivity.
  destruct (String.eqb_spec (em_event e) "document-fetcher:progress"); [contradiction|reflexivity].
Qed.

Lemma counted_up_quiet box0 s s' : quiet s s' -> counted_up box0 s -> counted_up box0 s'.
Proof.
  intros (_ & Hc & sent & Ho & Hsent) (mid & Hm1 & Hm2).
  exists (mid ++ sent). rewrite Ho, Hm1, app_assoc. split; [reflexivity|].
  rewrite progress_numbers_app, Hm2, Hc, progress_numbers_other, app_nil_r; [reflexivity|].
  eapply Forall_impl; [exact Hsent|]. intros e He Heq. simpl in He. rewrite Heq in He.
  exact (progress_is_no_download_event He).
Qed.

Lemma counted_up_final jobId T box0 s s' :
  final jobId T s s' -> counted_up box0 s -> counted_up box0 s'.
Proof.
  intros (result & t & _ & _ & Hc & Ho) (mid & Hm1 & Hm2).
  eexists. rewrite Ho, Hm1, <- app_assoc. split; [reflexivity|].
  rewrite progress_numbers_app, Hm2, Hc, seq_S. reflexivity.
Qed.

(** X14.  On every schedule the progress events of a batch carry the
    numbers 1, 2, ..., [totalTasks] as [current], in this order: each
    closure reports one more completed task than the one before it, and
    the last event reports them all. *)
Theorem progress_counts_up_by_one w data config jobId s sf out :
  processExcelFile w data config jobId s sf out ->
  ensureDir w (DOWNLOAD_DIR w) = Ok tt ->
  progress_numbers (drop (List.length (outbox (io s))) (outbox (io sf)))
  = seq 1 (count_tasks w config data).1.
Proof.
  intros [e He|s1 queue s2 tr sf' out' _ Hprep Hqueue Hfinish] Hdir; [congruence|].
  set (T := (count_tasks w config data).1) in *.
  pose proof (prepare_rel w config jobId T data 0 (start w data config jobId s, [])) as Hrel.
  rewrite Hprep in Hrel.
  destruct Hrel as (Hlen & _ & Hc & Ho & _ & Hok).
  cbn [fst snd] in *. specialize (Hok (Forall_nil_2 _)).
  change (completedTasks (start w data config jobId s)) with 0 in Hc.
  cbn [List.length Nat.add] in Hlen. fold T in Hlen.
  destruct (queue_run_inv jobId T (results s1) (outbox (io s1)) queue _ _ _ _ Hqueue Hok)
    as [_ Hc2].
  { split.
    - exists []. rewrite app_nil_r, Hc. auto.
    - exists []. rewrite app_nil_r. auto. }
  rewrite Hc, Hlen in Hc2. cbn [Nat.add] in Hc2.
  destruct (queue_keeps jobId T (counted_up (outbox (io s1)))
              (counted_up_quiet _) (counted_up_final jobId T _) queue _ _ _ _ Hqueue Hok)
    as (mid & Hm1 & Hm2).
  { exists []. rewrite app_nil_r, Hc. auto. }
  rewrite Hc2 in Hm2.
  assert (outbox (io s1) = outbox (io s) ++
          emits jobId "document-fetcher:start"
            (ServiceStart jobId (List.length data) T (count_tasks w config data).2 T
               (now w (clock s)))) as Hbox.
  { rewrite Ho. cbn. rewrite <- app_assoc. reflexivity. }
  unfold finish, createZipArchive in Hfinish.
  destruct (finalize w (zip_path w jobId)) as [[]|error] eqn:Hzip;
    cbn in Hfinish; injection Hfinish as <- <-; cbn;
    rewrite Hm1, Hbox, <- !app_assoc, drop_app_length, !progress_numbers_app, Hm2;
    cbn; rewrite app_nil_r; reflexivity.
Qed.

Lemma progress_counts_up_by_one_witness :
  exists sf out,
    processExcelFile plain_world [Some sample_row; None; Some ∅] (sample_config 2 sample_columns)
      "job" empty_state sf out /\
    progress_numbers (drop (List.length (outbox (io empty_state))) (outbox (io sf)))
    = seq 1 (count_tasks plain_world (sample_config 2 sample_columns)
               [Some sample_row; None; Some ∅]).1.
Proof.
  eexists _, _. split.
  - apply (processExcelFile_in_order_sound 5). vm_compute. reflexivity.
  - refine (progress_counts_up_by_one plain_world [Some sample_row; None; Some ∅]
              (sample_config 2 sample_columns) "job" empty_state _ _ _ _).
    + apply (processExcelFile_in_order_sound 5). vm_compute. reflexivity.
    + reflexivity.
Defined.



(** ** Password strength *)

Section StrengthFacts.
Import Password Generator.

Lemma analyze_counts (password : string) :
  let len := String.length password in
  score (analyzePasswordStrength password)
  = (if 8 <=? len then 1 else 0)%nat + (if 12 <=? len then 1 else 0)%nat +
    (if 16 <=? len then 1 else 0)%nat +
    (if test is_lower password then 1 else 0) + (if test is_upper password then 1 else 0) +
    (if test is_digit password then 1 else 0) + (if test is_special password then 1 else 0) +
    (if negb (has_repeat password) then 1 else 0) +
    (if negb (has_common_sequence password) then 1 else 0) /\
  score (analyzePasswordStrength password) + List.length (feedback (analyzePasswordStrength password))
  = 7 + (if 12 <=? len then 1 else 0)%nat + (if 16 <=? len then 1 else 0)%nat.
Proof.
  intros len. unfold analyzePasswordStrength. fold len. cbn [score feedback].
  generalize (8 <=? len)%nat (12 <=? len)%nat (16 <=? len)%nat
    (test is_lower password) (test is_upper password) (test is_digit password)
    (test is_special password) (negb (has_repeat password))
    (negb (has_common_sequence password)).
  intros b1 b2 b3 b4 b5 b6 b7 b8 b9.
  destruct b1, b2, b3, b4, b5, b6, b7, b8, b9; split; reflexivity.
Qed.

(** X16.  The score of [analyzePasswordStrength] is at most 9, so the
    level is never [very-strong]. *)
Theorem analyzePasswordStrength_is_never_very_strong (password : string) :
  score (analyzePasswordStrength password) <= 9 /\
  level (analyzePasswordStrength password) <> very_strong.
Proof.
  assert (score (analyzePasswordStrength password) <= 9) as Hscore.
  { destruct (analyze_counts password) as [-> _].
    repeat match goal with
           | |- context [if ?b then _ else _] => destruct b
           end; lia. }
  split; [exact Hscore|].
  unfold analyzePasswordStrength in *. cbn [score level] in *.
  repeat match goal with
         | |- context [(?a <=? ?b)%nat] => destruct (Nat.leb_spec a b)
         end; try discriminate. lia.
Qed.

(** X17.  A password rated [strong] has at least 12 characters; a password
    that gets no advice has at least 8 characters and is rated [good] or
    [strong]; a password of less than 8 characters is never [strong] and
    always gets advice. *)
Theorem strength_levels_and_feedback (password : string) :
  (level (analyzePasswordStrength password) = strong -> 12 <= String.length password) /\
  (feedback (analyzePasswordStrength password) = [] ->
   8 <= String.length password /\
   (level (analyzePasswordStrength password) = good \/
    level (analyzePasswordStrength password) = strong)) /\
  (String.length password < 8 ->
   level (analyzePasswordStrength password) <> strong /\
   feedback (analyzePasswordStrength password) <> []).
Proof.
  destruct (analyze_counts password) as [Hscore Hsum]. cbv zeta in Hscore, Hsum.
  assert (level (analyzePasswordStrength password)
          = if (score (analyzePasswordStrength password) <=? 3)%nat then weak
            else if (score (analyzePasswordStrength password) <=? 5)%nat then fair
            else if (score (analyzePasswordStrength password) <=? 7)%nat then good
            else if (score (analyzePasswordStrength password) <=? 9)%nat then strong
            else very_strong) as -> by reflexivity.
  set (n := score (analyzePasswordStrength password)) in *.
  set (texts := feedback (analyzePasswordStrength password)) in *.
  assert (exists k, k <= 6 /\
            n = (if (8 <=? String.length password)%nat then 1 else 0) +
                (if (12 <=? String.length password)%nat then 1 else 0) +
                (if (16 <=? String.length password)%nat then 1 else 0) + k) as (k & Hk & Hn).
  { exists ((if test is_lower password then 1 else 0) +
            (if test is_upper password then 1 else 0) +
            (if test is_digit password then 1 else 0) +
            (if test is_special password then 1 else 0) +
            (if negb (has_repeat password) then 1 else 0) +
            (if negb (has_common_sequence password) then 1 else 0)).
    split; [|lia].
    destruct (test is_lower password), (test is_upper password), (test is_digit password),
      (test is_special password), (negb (has_repeat password)),
      (negb (has_common_sequence password)); simpl; lia. }
  clear Hscore.
  assert (texts = [] -> List.length texts = 0) as Hnil by (intros ->; reflexivity).
  assert (List.length texts <> 0 -> texts <> []) as Hcons by (intros H E; auto).
  destruct (Nat.leb_spec 8 (String.length password)),
           (Nat.leb_spec 12 (String.length password)),
           (Nat.leb_spec 16 (String.length password)); try lia;
    destruct (Nat.leb_spec n 3), (Nat.leb_spec n 5), (Nat.leb_spec n 7), (Nat.leb_spec n 9);
    try lia;
    (split; [|split]);
    try (intros _; lia); try discriminate;
    try (intros E; apply Hnil in E; split; [lia|]; auto; lia);
    try (intros Hlt; split; [discriminate|apply Hcons; lia]);
    try (intros Hlt; lia).
Qed.
End StrengthFacts.

(** ** The generator and its routes *)

Section GeneratorFacts.
Import Password Generator.

Lemma remove_chars_mem p s c :
  mem_char c (remove_chars p s) = true -> p c = false /\ mem_char c s = true.
Proof.
  induction s as [|x s IH]; simpl; [discriminate|].
  destruct (p x) eqn:E; simpl.
  - intros H. destruct (IH H) as [H1 H2]. split; [exact H1|]. rewrite H2. apply orb_true_r.
  - intros H. apply orb_true_iff in H as [H|H].
    + apply Ascii.eqb_eq in H. subst c. split; [exact E|]. rewrite Ascii.eqb_refl. reflexivity.
    + destruct (IH H) as [H1 H2]. split; [exact H1|]. rewrite H2. apply orb_true_r.
Qed.

Lemma fill_mem charset array c :
  mem_char c (fill charset array) = true -> mem_char c charset = true.
Proof.
  destruct (String.eqb_spec charset "") as [->|Hne].
  - rewrite fill_empty_charset. discriminate.
  - apply fill_nonempty_charset, Hne.
Qed.

Lemma createPassword_Ok random config password :
  createPassword random config = Ok password ->
  selected config <> "" /\ (0 <= length config <= 65536)%Z /\
  password = fill (filtered config) (map random (seq 0 (Z.to_nat (length config)))).
Proof.
  unfold createPassword.
  destruct (String.eqb_spec (selected config) ""); [discriminate|].
  destruct (Z.ltb_spec (length config) 0); [discriminate|].
  destruct (Z.ltb_spec 65536 (length config)); [discriminate|].
  intros [= <-]. split; [assumption|]. split; [lia|reflexivity].
Qed.

(** X18.  A password [createPassword] returns holds none of the similar
    characters when [excludeSimilar] is set and none of the ambiguous
    characters when [excludeAmbiguous] is set. *)
Theorem excluded_characters_never_appear
    (random : nat -> Byte.byte) (config : PasswordConfig) (password : string) :
  createPassword random config = Ok password ->
  (excludeSimilar config = true ->
   forall c, mem_char c password = true -> is_similar c = false) /\
  (excludeAmbiguous config = true ->
   forall c, mem_char c password = true -> is_ambiguous c = false).
Proof.
  intros H. apply createPassword_Ok in H as (_ & _ & ->). unfold filtered. split.
  - intros -> c Hc. apply fill_mem in Hc.
    destruct (excludeAmbiguous config).
    + apply remove_chars_mem in Hc as [_ Hc]. apply remove_chars_mem in Hc as [Hc _]. exact Hc.
    + apply remove_chars_mem in Hc as [Hc _]. exact Hc.
  - intros -> c Hc. apply fill_mem in Hc.
    apply remove_chars_mem in Hc as [Hc _]. exact Hc.
Qed.

Lemma excluded_characters_never_appear_witness :
  (true = true -> forall c, mem_char c "aaaaaaaa" = true -> is_similar c = false) /\
  (true = true -> forall c, mem_char c "aaaaaaaa" = true -> is_ambiguous c = false).
Proof.
  apply (excluded_characters_never_appear (fun _ => Byte.x00)
           {| length := 8; includeUppercase := true; includeLowercase := true;
              includeNumbers := true; includeSymbols := true; excludeSimilar := true;
              excludeAmbiguous := true; customChars := None; count := 1 |}).
  reflexivity.
Defined.

(** X19.  [POST /generate] answers 400 for a length outside 4 to 128; for a
    length inside it answers 500 only when no character is selected, and
    otherwise 200 with a success whose password is made of characters of the
    filtered set, has the requested length when that set is not empty, and
    is the empty string when it is. *)
Theorem generate_route_answers (w : World) (p : Platform) (config : PasswordConfig) :
  ((length config < 4)%Z \/ (128 < length config)%Z ->
   generate w p config = Refusal 400 "Password length must be between 4 and 128 characters") /\
  ((4 <= length config <= 128)%Z -> selected config = "" ->
   generate w p config = Refusal 500 "At least one character type must be selected") /\
  ((4 <= length config <= 128)%Z -> selected config <> "" ->
   exists result,
     generate w p config = Answer 200 result "Password generated successfully" /\
     p_status result = success /\ p_error result = None /\
     p_strength result = analyzePasswordStrength (p_password result) /\
     (forall c, mem_char c (p_password result) = true -> mem_char c (filtered config) = true) /\
     (filtered config <> "" -> String.length (p_password result) = Z.to_nat (length config)) /\
     (filtered config = "" -> p_password result = "")).
Proof.
  unfold generate, generatePassword, createPassword. split; [|split].
  - intros H.
    destruct (Z.eqb_spec (length config) 0), (Z.ltb_spec (length config) 4),
      (Z.ltb_spec 128 (length config)); try reflexivity; lia.
  - intros H Hsel.
    destruct (Z.eqb_spec (length config) 0), (Z.ltb_spec (length config) 4),
      (Z.ltb_spec 128 (length config)); try lia.
    rewrite Hsel. reflexivity.
  - intros H Hsel.
    destruct (Z.eqb_spec (length config) 0), (Z.ltb_spec (length config) 4),
      (Z.ltb_spec 128 (length config)); try lia.
    destruct (String.eqb_spec (selected config) ""); [contradiction|].
    destruct (Z.ltb_spec (length config) 0); [lia|].
    destruct (Z.ltb_spec 65536 (length config)); [lia|].
    cbn [orb]. eexists. split; [reflexivity|]. cbn [p_status p_error p_strength p_password].
    split; [reflexivity|]. split; [reflexivity|]. split; [reflexivity|].
    split; [intros c; apply fill_mem|]. split.
    + intros Hne. destruct (fill_nonempty_charset (filtered config)
        (map (random p 0) (seq 0 (Z.to_nat (length config)))) Hne) as [-> _].
      rewrite length_map, length_seq. reflexivity.
    + intros ->. apply fill_empty_charset.
Qed.
End GeneratorFacts.

Section BulkFacts.
Import Password Generator.
Context (w : World) (p : Platform) (config : PasswordConfig) (jobId : string).

(** Whether [createPassword] throws, and what, does not depend on the
    random bytes. *)
Lemma createPassword_throws_alike (random1 random2 : nat -> Byte.byte) error :
  createPassword random1 config = Throw error -> createPassword random2 config = Throw error.
Proof.
  unfold createPassword.
  destruct (String.eqb (selected config) ""); [auto|].
  destruct (length config <? 0)%Z; [auto|].
  destruct (65536 <? length config)%Z; [auto|discriminate].
Qed.

Lemma createPassword_throws_an_Error random error :
  createPassword random config = Throw error -> exists text, error = ErrorObj text /\ text <> "".
Proof.
  unfold createPassword.
  destruct (String.eqb (selected config) ""); [intros [= <-]; eexists; split; [reflexivity|discriminate]|].
  destruct (length config <? 0)%Z; [intros [= <-]; eexists; split; [reflexivity|discriminate]|].
  destruct (65536 <? length config)%Z; [intros [= <-]; eexists; split; [reflexivity|discriminate]|].
  discriminate.
Qed.

Lemma item_step (j : job) (i : nat) :
  exists r t n,
    item w p config jobId j i =
      {| reads := n; results := results j ++ [r];
         sent := sent j ++
                 emits jobId "password-generator:progress"
                   (BulkProgress jobId (i + 1) (count config) (percent (i + 1) (count config)) r t) |} /\
    item_outcome p config i r.
Proof.
  unfold item, generatePassword, item_outcome.
  destruct (createPassword (random p i) config) as [password|error];
    eexists _, _, _; (split; [reflexivity|]); cbn; auto 10.
Qed.

Lemma loop_steps (m a : nat) (j : job) :
  exists items n,
    fold_left (item w p config jobId) (seq a m) j =
      {| reads := n; results := results j ++ items.*1;
         sent := sent j ++ progress_events jobId (count config) a items |} /\
    List.length items = m /\
    forall k rt, items !! k = Some rt -> item_outcome p config (a + k) rt.1.
Proof.
  revert a j. induction m as [|m IH]; intros a j.
  - exists [], (reads j). cbn. rewrite !app_nil_r. destruct j. split; [reflexivity|].
    split; [reflexivity|]. intros k rt H. discriminate.
  - cbn [seq fold_left].
    destruct (item_step j a) as (r & t & n & -> & Hr).
    destruct (IH (S a) {| reads := n; results := results j ++ [r];
                          sent := sent j ++ emits jobId "password-generator:progress"
                            (BulkProgress jobId (a + 1) (count config)
                               (percent (a + 1) (count config)) r t) |})
      as (items & n' & -> & Hlen & Hitems).
    exists ((r, t) :: items), n'. cbn [results sent]. split; [|split].
    + cbn [progress_events fmap list_fmap fst]. rewrite <- !app_assoc. reflexivity.
    + simpl. congruence.
    + intros [|k] rt H.
      * injection H as <-. rewrite Nat.add_0_r. exact Hr.
      * replace (a + S k) with (S a + k) by lia. apply Hitems. exact H.
Qed.

Lemma loop_shape :
  exists items n,
    loop w p config jobId =
      {| reads := n; results := items.*1;
         sent := emits jobId "password-generator:start"
                   (BulkStart jobId (count config) config (now w 0)) ++
                 progress_events jobId (count config) 0 items |} /\
    List.length items = Z.to_nat (count config) /\
    forall k rt, items !! k = Some rt -> item_outcome p config k rt.1.
Proof.
  unfold loop.
  destruct (loop_steps (Z.to_nat (count config)) 0
              {| reads := 1; results := [];
                 sent := emits jobId "password-generator:start"
                           (BulkStart jobId (count config) config (now w 0)) |})
    as (items & n & -> & Hlen & Hitems).
  exists items, n. split; [reflexivity|]. split; [exact Hlen|exact Hitems].
Qed.

Lemma item_outcome_status i r :
  item_outcome p config i r -> p_status r = success \/ p_status r = failed.
Proof.
  unfold item_outcome. destruct (createPassword (random p i) config); intros (H & _); auto.
Qed.

Lemma count_by_status (rs : list PasswordResult) :
  Forall (fun r => p_status r = success \/ p_status r = failed) rs ->
  List.length (List.filter succeeded rs) + List.length (List.filter has_failed rs)
  = List.length rs.
Proof.
  induction 1 as [|r rs Hr _ IH]; [reflexivity|].
  cbn [List.filter]. unfold succeeded at 1, has_failed at 1.
  destruct Hr as [-> | ->]; simpl; lia.
Qed.

(** X20.  A bulk job sends its start event, then one progress event per
    requested password with [current] counting from 1, then the complete
    event or, when the files cannot be written, the error event; every
    result is a success or a failure, and the two counts of the complete
    event add up to the number of passwords requested. *)
Theorem bulk_job_reports_every_item :
  exists items ending,
    generateBulkPasswords w p config jobId =
      emits jobId "password-generator:start"
        (BulkStart jobId (count config) config (now w 0)) ++
      progress_events jobId (count config) 0 items ++ ending /\
    List.length items = Z.to_nat (count config) /\
    Forall (fun rt => p_status rt.1 = success \/ p_status rt.1 = failed) items /\
    List.length (List.filter succeeded items.*1) +
    List.length (List.filter has_failed items.*1) = Z.to_nat (count config) /\
    ((exists files t,
        ending = emits jobId "password-generator:complete"
                   (BulkComplete jobId (List.length (List.filter succeeded items.*1))
                      (List.length (List.filter has_failed items.*1)) files items.*1 t)) \/
     (exists error t,
        ending = emits jobId "password-generator:error" (BulkError jobId (error_of error) t))).
Proof.
  destruct loop_shape as (items & n & Hloop & Hlen & Hitems).
  assert (Forall (fun rt => p_status rt.1 = success \/ p_status rt.1 = failed) items) as Hst.
  { apply Forall_lookup. intros k rt H. eapply item_outcome_status, Hitems, H. }
  unfold generateBulkPasswords. rewrite Hloop. cbn [reads results sent].
  destruct (createPasswordFiles w p jobId n) as [n' [files|error]].
  - eexists items, _. rewrite <- app_assoc. split; [reflexivity|].
    split; [exact Hlen|]. split; [exact Hst|]. split; [|left; eauto].
    rewrite count_by_status, length_fmap; [exact Hlen|]. apply Forall_fmap. exact Hst.
  - eexists items, _. rewrite <- app_assoc. split; [reflexivity|].
    split; [exact Hlen|]. split; [exact Hst|]. split; [|right; eauto].
    rewrite count_by_status, length_fmap; [exact Hlen|]. apply Forall_fmap. exact Hst.
Qed.

(** X21.  The items of a bulk job succeed or fail together: either every
    result is a success whose password is made of characters of the
    filtered set, or every result is a failure with the same message, the
    same [error] and an empty password. *)
Theorem bulk_items_succeed_or_fail_together :
  Forall (fun r => p_status r = success /\ p_error r = None /\
                   forall c, mem_char c (p_password r) = true ->
                             mem_char c (filtered config) = true)
    (results (loop w p config jobId)) \/
  exists text,
    text <> "" /\
    Forall (fun r => p_status r = failed /\ p_message r = text /\ p_error r = Some text /\
                     p_password r = "")
      (results (loop w p config jobId)).
Proof.
  destruct loop_shape as (items & n & -> & Hlen & Hitems). cbn [results].
  destruct (createPassword (random p 0) config) as [password|error] eqn:E.
  - left. apply Forall_fmap, Forall_lookup. intros k rt H. specialize (Hitems k rt H).
    unfold item_outcome in Hitems.
    destruct (createPassword (random p k) config) as [pw|err] eqn:Ek.
    + destruct Hitems as (H1 & H2 & H3 & _). simpl. split; [exact H1|]. split; [exact H2|].
      rewrite H3. apply createPassword_Ok in Ek as (_ & _ & ->). intros c. apply fill_mem.
    + apply (createPassword_throws_alike _ (random p 0)) in Ek. congruence.
  - right. destruct (createPassword_throws_an_Error _ _ E) as (text & -> & Htext).
    exists text. split; [exact Htext|].
    apply Forall_fmap, Forall_lookup. intros k rt H. specialize (Hitems k rt H).
    unfold item_outcome in Hitems.
    rewrite (createPassword_throws_alike _ (random p k) _ E) in Hitems.
    destruct Hitems as (H1 & _ & H3 & H4 & H5). simpl. auto.
Qed.

End BulkFacts.

